(** * roblox-ts: the compilable-file classifier and the MacroManager

    A shallow embedding of [src/Project/util/isCompilableFile.ts] and of the
    [MacroManager] class that follows it in the same source unit, with the
    properties the specification states about them.

    Conventions of the embedding:
    - a JavaScript string is a [string]; a [ts.Symbol] is an identity token
      (a [positive]), since the [Map]s of the class are keyed by object
      identity;
    - a [Map<string, V>] is a [gmap string V], a [Map<ts.Symbol, V>] a
      [gmap Symbol V]; an [Array<ts.Symbol>] is a [list Symbol] and [push]
      appends at the end;
    - [throw] is the [Throw] branch of the [Completion] type, and the
      constructor is a function into [Completion MacroManager];
    - the file system, [path.join], the [ts.Program] and the [ts.TypeChecker]
      are records of functions supplied by the caller. *)

From Stdlib Require Import String Ascii List Bool Arith Lia.
From stdpp Require Import base option list gmap strings.

Local Open Scope string_scope.
Local Open Scope list_scope.

(** ** Strings *)

Module Str.

(** [String.prototype.endsWith(searchString)] with the default end position:
    [start = len - searchLength]; a negative [start] answers [false];
    otherwise the code units from [start] on are compared with
    [searchString]. *)
Definition endsWith (s searchString : string) : bool :=
  let len := String.length s in
  let searchLength := String.length searchString in
  if (len <? searchLength)%nat then false
  else String.eqb (substring (len - searchLength) searchLength s) searchString.

(** [String.prototype.includes(searchString)]: some position of [s] starts an
    occurrence of [searchString]. *)
Fixpoint includes (s searchString : string) : bool :=
  String.prefix searchString s ||
  match s with
  | EmptyString => false
  | String _ rest => includes rest searchString
  end.

End Str.

(** ** [isCompilableFile] *)

Module Constants.

(** Modelled from the spec: the three extension constants of
    [Shared/constants], which the source imports and does not define; the
    property of the classifier names them as [".ts"], [".tsx"] and
    [".d.ts"]. *)
Definition TS_EXT : string := ".ts".
Definition TSX_EXT : string := ".tsx".
Definition DTS_EXT : string := ".d.ts".

End Constants.

Section Classifier.

Variables DTS_EXT TS_EXT TSX_EXT : string.

Definition isCompilableFile_with (fsPath : string) : bool :=
  if Str.endsWith fsPath DTS_EXT then false
  else Str.endsWith fsPath TS_EXT || Str.endsWith fsPath TSX_EXT.

End Classifier.

Definition isCompilableFile : string -> bool :=
  isCompilableFile_with Constants.DTS_EXT Constants.TS_EXT Constants.TSX_EXT.

(** ** Exceptions and completions *)

(** The two kinds of exception the constructor can raise: the
    [ProjectError] it throws itself, with its message, and the [TypeError]
    of the JavaScript engine for a property read on [undefined]. *)
Inductive Exception : Type :=
  | ProjectError (message : string)
  | TypeError.

Inductive Completion (A : Type) : Type :=
  | Normal (value : A)
  | Throw (e : Exception).

Arguments Normal {A} value.
Arguments Throw {A} e.

Definition isProjectError (e : Exception) : bool :=
  match e with
  | ProjectError _ => true
  | TypeError => false
  end.

Definition andThen {A B} (c : Completion A) (k : A -> Completion B) :
  Completion B :=
  match c with
  | Normal a => k a
  | Throw e => Throw e
  end.

Notation "'let*' x := c 'in' k" := (andThen c (fun x => k))
  (at level 10, x pattern, c at level 100, k at level 200).

(** [for (const x of xs) body]: the body runs on the elements in order and
    the first [throw] leaves the loop. *)
Fixpoint for_of {A S} (body : S -> A -> Completion S) (xs : list A) (s : S) :
  Completion S :=
  match xs with
  | [] => Normal s
  | x :: rest => let* s' := body s x in for_of body rest s'
  end.

(** ** The syntax tree of a declaration file, as the constructor reads it *)

(** A [ts.Symbol]; [Map] keys of this type are compared by identity. *)
Abbreviation Symbol := positive (only parsing).

(** [declaration.name] of a variable declaration. *)
Inductive BindingName : Type :=
  | BN_Identifier (text : string)
  | BN_ObjectBindingPattern
  | BN_ArrayBindingPattern.

(** [member.name] of a method signature. *)
Inductive PropertyName : Type :=
  | PN_Identifier (text : string)
  | PN_StringLiteral (text : string)
  | PN_NumericLiteral (text : string)
  | PN_ComputedPropertyName.

Record VariableDeclaration : Type := {
  vd_name : BindingName;
  vd_symbol : Symbol;
}.

(** Members of an interface declaration; [pos] is the node's position in
    its file, [symbol] the node's own declaration symbol. *)
Inductive TypeElement : Type :=
  | MethodSignature (pos : nat) (name : PropertyName) (symbol : Symbol)
  | ConstructSignatureDeclaration (pos : nat) (symbol : Symbol)
  | OtherTypeElement (pos : nat).

(** Top-level statements. The name of a function declaration is optional
    in the syntax tree ([statement.name!] in the source). *)
Inductive Statement : Type :=
  | VariableStatement (pos : nat) (declarations : list VariableDeclaration)
  | FunctionDeclaration (pos : nat) (name : option string) (symbol : Symbol)
  | InterfaceDeclaration (pos : nat) (name : string) (symbol : Symbol)
      (members : list TypeElement)
  | OtherStatement (pos : nat).

Record SourceFile : Type := { statements : list Statement }.

Inductive Node : Type :=
  | StatementNode (statement : Statement)
  | TypeElementNode (member : TypeElement).

Record TsType : Type := { ty_symbol : Symbol }.

(** ** The collaborators of the constructor *)

Record TypeChecker : Type := { getTypeAtLocation : Node -> TsType }.

Record Program : Type := { getSourceFileByPath : string -> option SourceFile }.

(** [fs.pathExistsSync] and [path.join]. *)
Record Host : Type := {
  pathExistsSync : string -> bool;
  path_join : list string -> string;
}.

(** ** The Name Index *)

Definition INCLUDE_FILES : list string :=
  ["roblox.d.ts"; "es.d.ts"; "macro_math.d.ts"].

Record InterfaceInfo : Type := {
  symbols : list Symbol;
  constructors : list Symbol;
  methods : gmap string (list Symbol);
}.

(** The three local maps of the constructor. *)
Record NameIndex : Type := {
  identifiers : gmap string (list Symbol);
  functions : gmap string (list Symbol);
  interfaces : gmap string InterfaceInfo;
}.

Definition emptyIndex : NameIndex :=
  {| identifiers := ∅; functions := ∅; interfaces := ∅ |}.

(** [getOrDefault] returns the value and the map, which it extends when the
    key was missing. The values stored are arrays and object literals, which
    are never falsy, so [!value] holds exactly on a missing key. *)
Definition getOrDefault {V} (map : gmap string V) (key : string)
    (getDefaultValue : unit -> V) : V * gmap string V :=
  match map !! key with
  | Some value => (value, map)
  | None => let value := getDefaultValue tt in (value, <[key := value]> map)
  end.

(** [getOrDefault(map, key, () => new Array()).push(symbol)]: the array
    returned is the one stored in the map, so the push is seen there. *)
Definition pushSymbol (map : gmap string (list Symbol)) (key : string)
    (symbol : Symbol) : gmap string (list Symbol) :=
  let '(array, map) := getOrDefault map key (fun _ => []) in
  <[key := array ++ [symbol]]> map.

Definition scanVariableDeclaration (identifiers : gmap string (list Symbol))
    (declaration : VariableDeclaration) : gmap string (list Symbol) :=
  match vd_name declaration with
  | BN_Identifier identifierName =>
      pushSymbol identifiers identifierName (vd_symbol declaration)
  | _ => identifiers
  end.

Definition scanMember (typeChecker : TypeChecker)
    (interfaceInfo : InterfaceInfo) (member : TypeElement) : InterfaceInfo :=
  match member with
  | MethodSignature _ name _ =>
      match name with
      | PN_Identifier methodName =>
          let methodSymbols :=
            match methods interfaceInfo !! methodName with
            | Some methodSymbols => methodSymbols
            | None => []
            end in
          {| symbols := symbols interfaceInfo;
             constructors := constructors interfaceInfo;
             methods :=
               <[methodName :=
                   methodSymbols ++
                   [ty_symbol
                      (getTypeAtLocation typeChecker (TypeElementNode member))]]>
                 (methods interfaceInfo) |}
      | _ => interfaceInfo
      end
  | ConstructSignatureDeclaration _ symbol =>
      {| symbols := symbols interfaceInfo;
         constructors := constructors interfaceInfo ++ [symbol];
         methods := methods interfaceInfo |}
  | OtherTypeElement _ => interfaceInfo
  end.

Definition scanInterface (typeChecker : TypeChecker)
    (interfaces : gmap string InterfaceInfo) (statement : Statement)
    (name : string) (members : list TypeElement) : gmap string InterfaceInfo :=
  let '(interfaceInfo, interfaces) :=
    getOrDefault interfaces name
      (fun _ => {| symbols := []; constructors := []; methods := ∅ |}) in
  let interfaceInfo :=
    {| symbols :=
         symbols interfaceInfo ++
         [ty_symbol (getTypeAtLocation typeChecker (StatementNode statement))];
       constructors := constructors interfaceInfo;
       methods := methods interfaceInfo |} in
  <[name := fold_left (scanMember typeChecker) members interfaceInfo]>
    interfaces.

(** The body of the loop over [sourceFile.statements]. *)
Definition scanStatement (typeChecker : TypeChecker) (index : NameIndex)
    (statement : Statement) : Completion NameIndex :=
  match statement with
  | VariableStatement _ declarations =>
      Normal
        {| identifiers :=
             fold_left scanVariableDeclaration declarations (identifiers index);
           functions := functions index;
           interfaces := interfaces index |}
  | FunctionDeclaration _ name _ =>
      match name with
      | None => Throw TypeError
      | Some text =>
          Normal
            {| identifiers := identifiers index;
               functions :=
                 pushSymbol (functions index) text
                   (ty_symbol
                      (getTypeAtLocation typeChecker (StatementNode statement)));
               interfaces := interfaces index |}
      end
  | InterfaceDeclaration _ name _ members =>
      Normal
        {| identifiers := identifiers index;
           functions := functions index;
           interfaces :=
             scanInterface typeChecker (interfaces index) statement name
               members |}
  | OtherStatement _ => Normal index
  end.

Definition scanStatements (typeChecker : TypeChecker)
    (stmts : list Statement) (index : NameIndex) : Completion NameIndex :=
  for_of (scanStatement typeChecker) stmts index.

Definition typesPath (host : Host) (nodeModulesPath : string) : string :=
  path_join host [nodeModulesPath; "@rbxts"; "types"; "include"].

(** The body of the loop over [INCLUDE_FILES]. *)
Definition scanFile (host : Host) (program : Program)
    (typeChecker : TypeChecker) (nodeModulesPath : string)
    (index : NameIndex) (fileName : string) : Completion NameIndex :=
  let filePath := path_join host [typesPath host nodeModulesPath; fileName] in
  if negb (pathExistsSync host filePath) then
    Throw (ProjectError ("(MacroManager) Path does not exist " +:+ filePath))
  else
    match getSourceFileByPath program filePath with
    | None =>
        Throw (ProjectError
                 ("(MacroManager) Could not find source file for " +:+ filePath))
    | Some sourceFile =>
        scanStatements typeChecker (statements sourceFile) index
    end.

(** The first half of the constructor: the Declaration Scanner. *)
Definition scanDeclarations (host : Host) (program : Program)
    (typeChecker : TypeChecker) (nodeModulesPath : string) :
  Completion NameIndex :=
  for_of (scanFile host program typeChecker nodeModulesPath) INCLUDE_FILES
    emptyIndex.

(** ** The Macro Binder and the registry *)

Section Registry.

(** The macro payloads of [TSTransformer/macros/types]; the constructor
    only stores them. *)
Context {IdentifierMacro CallMacro ConstructorMacro PropertyCallMacro : Type}.

(** The four imported macro tables, each as [Object.entries] lists it: in
    the table's own order, one entry per key. *)
Record MacroTables : Type := {
  IDENTIFIER_MACROS : list (string * IdentifierMacro);
  CALL_MACROS : list (string * CallMacro);
  CONSTRUCTOR_MACROS : list (string * ConstructorMacro);
  PROPERTY_CALL_MACROS : list (string * list (string * PropertyCallMacro));
}.

(** The four private fields of the class. *)
Record MacroManager : Type := {
  identifierMacros : gmap Symbol IdentifierMacro;
  callMacros : gmap Symbol CallMacro;
  constructorMacros : gmap Symbol ConstructorMacro;
  propertyCallMacros : gmap Symbol PropertyCallMacro;
}.

(** [for (const symbol of symbols) table.set(symbol, macro)]. *)
Definition setAll {M} (symbols : list Symbol) (macro : M)
    (table : gmap Symbol M) : gmap Symbol M :=
  fold_left (fun table symbol => <[symbol := macro]> table) symbols table.

(** The common shape of the binding loops: each entry's name is looked up,
    a miss throws the [ProjectError] with the loop's message for that name,
    a hit binds every symbol found to the entry's macro. *)
Definition bindEntries {M} (lookupName : string -> option (list Symbol))
    (notFound : string -> string) (entries : list (string * M))
    (table : gmap Symbol M) : Completion (gmap Symbol M) :=
  for_of
    (fun table '(name, macro) =>
       match lookupName name with
       | None => Throw (ProjectError (notFound name))
       | Some symbols => Normal (setAll symbols macro table)
       end)
    entries table.

Definition noIdentifier (identifierName : string) : string :=
  "(MacroManager) No identifier found for " +:+ identifierName.

Definition noFunction (funcName : string) : string :=
  "(MacroManager) No function found for " +:+ funcName.

Definition noInterface (className : string) : string :=
  "(MacroManager) No interface found for " +:+ className.

Definition noMethod (className methodName : string) : string :=
  "(MacroManager) No method found for " +:+ className +:+ "." +:+ methodName.

Definition bindIdentifierMacros (index : NameIndex) :=
  bindEntries (M := IdentifierMacro)
    (fun identifierName => identifiers index !! identifierName) noIdentifier.

Definition bindCallMacros (index : NameIndex) :=
  bindEntries (M := CallMacro)
    (fun funcName => functions index !! funcName) noFunction.

Definition bindConstructorMacros (index : NameIndex) :=
  bindEntries (M := ConstructorMacro)
    (fun className => constructors <$> interfaces index !! className)
    noInterface.

(** The body of the loop over [Object.entries(PROPERTY_CALL_MACROS)]. *)
Definition bindClassMethods (index : NameIndex)
    (table : gmap Symbol PropertyCallMacro)
    (entry : string * list (string * PropertyCallMacro)) :
  Completion (gmap Symbol PropertyCallMacro) :=
  let '(className, methodMacros) := entry in
  match interfaces index !! className with
  | None => Throw (ProjectError (noInterface className))
  | Some interfaceInfo =>
      bindEntries (fun methodName => methods interfaceInfo !! methodName)
        (noMethod className) methodMacros table
  end.

Definition bindPropertyCallMacros (index : NameIndex) :=
  for_of (bindClassMethods index).

(** The second half of the constructor: the four binding loops, in the
    order of the source. *)
Definition bindMacros (tables : MacroTables) (index : NameIndex) :
  Completion MacroManager :=
  let* identifierMacros :=
    bindIdentifierMacros index (IDENTIFIER_MACROS tables) ∅ in
  let* callMacros := bindCallMacros index (CALL_MACROS tables) ∅ in
  let* constructorMacros :=
    bindConstructorMacros index (CONSTRUCTOR_MACROS tables) ∅ in
  let* propertyCallMacros :=
    bindPropertyCallMacros index (PROPERTY_CALL_MACROS tables) ∅ in
  Normal
    {| identifierMacros := identifierMacros;
       callMacros := callMacros;
       constructorMacros := constructorMacros;
       propertyCallMacros := propertyCallMacros |}.

(** [new MacroManager(program, typeChecker, nodeModulesPath)], with the
    file system and the macro tables it reads made explicit. *)
Definition MacroManager_new (host : Host) (tables : MacroTables)
    (program : Program) (typeChecker : TypeChecker)
    (nodeModulesPath : string) : Completion MacroManager :=
  let* index := scanDeclarations host program typeChecker nodeModulesPath in
  bindMacros tables index.

Definition getIdentifierMacro (this : MacroManager) (symbol : Symbol) :
  option IdentifierMacro := identifierMacros this !! symbol.

Definition getCallMacro (this : MacroManager) (symbol : Symbol) :
  option CallMacro := callMacros this !! symbol.

Definition getConstructorMacro (this : MacroManager) (symbol : Symbol) :
  option ConstructorMacro := constructorMacros this !! symbol.

Definition getPropertyCallMacro (this : MacroManager) (symbol : Symbol) :
  option PropertyCallMacro := propertyCallMacros this !! symbol.

End Registry.

Arguments MacroTables : clear implicits.
Arguments MacroManager : clear implicits.

(** ** Vocabulary of the properties *)

(** The name [name] is a hit of the look-up and [s] one of its symbols. *)
Definition recordedUnder (lookupName : string -> option (list Symbol))
    (name : string) (s : Symbol) : Prop :=
  exists symbols, lookupName name = Some symbols /\ s ∈ symbols.

(** Look-ups of the Name Index, as the binding loops perform them. *)
Definition identifierSymbols (index : NameIndex) (name : string) :
  option (list Symbol) := identifiers index !! name.

Definition functionSymbols (index : NameIndex) (name : string) :
  option (list Symbol) := functions index !! name.

Definition constructorSymbols (index : NameIndex) (name : string) :
  option (list Symbol) := constructors <$> interfaces index !! name.

Definition methodsOf (interfaces : gmap string InterfaceInfo)
    (className methodName : string) : option (list Symbol) :=
  match interfaces !! className with
  | Some interfaceInfo => methods interfaceInfo !! methodName
  | None => None
  end.

Definition methodSymbols (index : NameIndex) (className methodName : string) :
  option (list Symbol) := methodsOf (interfaces index) className methodName.

(** [typeChecker.getTypeAtLocation(node).symbol]. *)
Definition typeSymbolOf (typeChecker : TypeChecker) (node : Node) : Symbol :=
  ty_symbol (getTypeAtLocation typeChecker node).

(** The interface entry after one interface declaration was scanned. *)
Definition scannedInfo (typeChecker : TypeChecker)
    (interfaces : gmap string InterfaceInfo) (statement : Statement)
    (name : string) (members : list TypeElement) : InterfaceInfo :=
  let old :=
    default {| symbols := []; constructors := []; methods := ∅ |}
      (interfaces !! name) in
  fold_left (scanMember typeChecker) members
    {| symbols :=
         symbols old ++ [typeSymbolOf typeChecker (StatementNode statement)];
       constructors := constructors old;
       methods := methods old |}.

(** Everything recorded in [a] is recorded in [b]: the arrays of the Name
    Index only grow. *)
Record index_le (a b : NameIndex) : Prop := {
  le_identifiers : forall name s,
    recordedUnder (identifierSymbols a) name s ->
    recordedUnder (identifierSymbols b) name s;
  le_functions : forall name s,
    recordedUnder (functionSymbols a) name s ->
    recordedUnder (functionSymbols b) name s;
  le_constructors : forall name s,
    recordedUnder (constructorSymbols a) name s ->
    recordedUnder (constructorSymbols b) name s;
  le_methods : forall className methodName s,
    recordedUnder (methodSymbols a className) methodName s ->
    recordedUnder (methodSymbols b className) methodName s;
}.

Definition includePath (host : Host) (nodeModulesPath fileName : string) :
  string :=
  path_join host [typesPath host nodeModulesPath; fileName].

(** The statements of the declaration files the program holds, in the
    order of the file names. *)
Definition statementsOf (host : Host) (program : Program)
    (nodeModulesPath : string) (fileNames : list string) : list Statement :=
  flat_map
    (fun fileName =>
       match getSourceFileByPath program
               (includePath host nodeModulesPath fileName) with
       | Some sourceFile => statements sourceFile
       | None => []
       end)
    fileNames.

Definition scannedStatements (host : Host) (program : Program)
    (nodeModulesPath : string) : list Statement :=
  statementsOf host program nodeModulesPath INCLUDE_FILES.

(** Every entry's name is a hit of the look-up. *)
Definition hits {M} (lookupName : string -> option (list Symbol))
    (entries : list (string * M)) : Prop :=
  Forall (fun entry => is_Some (lookupName entry.1)) entries.

(** The interface of a property-call entry is in the index, with every
    method the entry names. *)
Definition classHits {M} (index : NameIndex)
    (entry : string * list (string * M)) : Prop :=
  is_Some (interfaces index !! entry.1) /\
  hits (methodSymbols index entry.1) entry.2.

(** A table lists each key once ([Object.entries] of an object). *)
Definition keyedOnce {M} (entries : list (string * M)) : Prop :=
  NoDup entries.*1.

(** Each class key once, and each method key once within its class. *)
Definition keyedOnceNested {M} (classes : list (string * list (string * M))) :
  Prop :=
  keyedOnce classes /\ Forall (fun entry => keyedOnce entry.2) classes.

(** No symbol is recorded under two names of the table: a resolved symbol
    is the identity of one declared name. *)
Definition unshared {M} (lookupName : string -> option (list Symbol))
    (entries : list (string * M)) : Prop :=
  forall name1 macro1 name2 macro2 s,
    (name1, macro1) ∈ entries -> (name2, macro2) ∈ entries ->
    recordedUnder lookupName name1 s -> recordedUnder lookupName name2 s ->
    name1 = name2.

(** The same for the methods the property-call table names. *)
Definition unsharedMethods {M} (index : NameIndex)
    (classes : list (string * list (string * M))) : Prop :=
  forall class1 methods1 method1 macro1 class2 methods2 method2 macro2 s,
    (class1, methods1) ∈ classes -> (method1, macro1) ∈ methods1 ->
    (class2, methods2) ∈ classes -> (method2, macro2) ∈ methods2 ->
    recordedUnder (methodSymbols index class1) method1 s ->
    recordedUnder (methodSymbols index class2) method2 s ->
    class1 = class2 /\ method1 = method2.

Definition hasSimpleName (declaration : VariableDeclaration) : bool :=
  match vd_name declaration with
  | BN_Identifier _ => true
  | _ => false
  end.

Definition isRecordedMember (member : TypeElement) : bool :=
  match member with
  | MethodSignature _ (PN_Identifier _) _ => true
  | ConstructSignatureDeclaration _ _ => true
  | _ => false
  end.

Definition isScannedStatement (statement : Statement) : bool :=
  match statement with
  | OtherStatement _ => false
  | _ => true
  end.

Definition isUnnamedFunction (statement : Statement) : bool :=
  match statement with
  | FunctionDeclaration _ None _ => true
  | _ => false
  end.

(** The precondition of [statement.name!]: every function declaration
    carries a name. *)
Definition allFunctionsNamed (stmts : list Statement) : Prop :=
  Forall (fun statement => isUnnamedFunction statement = false) stmts.

(** Some entry of some table names a target the Name Index lacks. *)
Definition someTargetAbsent {I C K P : Type} (tables : MacroTables I C K P)
    (index : NameIndex) : Prop :=
  (exists name macro,
      (name, macro) ∈ IDENTIFIER_MACROS tables /\
      identifierSymbols index name = None) \/
  (exists name macro,
      (name, macro) ∈ CALL_MACROS tables /\ functionSymbols index name = None) \/
  (exists name macro,
      (name, macro) ∈ CONSTRUCTOR_MACROS tables /\
      interfaces index !! name = None) \/
  (exists className methodMacros,
      (className, methodMacros) ∈ PROPERTY_CALL_MACROS tables /\
      (interfaces index !! className = None \/
       exists methodName macro,
         (methodName, macro) ∈ methodMacros /\
         methodSymbols index className methodName = None)).

(** The claim C2 as it is worded, for the identifier table: whenever an
    entry's name is absent from the identifier index, construction raises a
    [ProjectError] whose message contains that name. *)
Definition every_absent_identifier_named : Prop :=
  forall (I C K P : Type) (host : Host) (tables : MacroTables I C K P)
         (program : Program) (typeChecker : TypeChecker)
         (nodeModulesPath : string) (index : NameIndex),
    scanDeclarations host program typeChecker nodeModulesPath = Normal index ->
    forall name macro,
      (name, macro) ∈ IDENTIFIER_MACROS tables ->
      identifierSymbols index name = None ->
      exists message,
        MacroManager_new host tables program typeChecker nodeModulesPath
        = Throw (ProjectError message) /\
        Str.includes message name = true.

(** ** What the declaration files declare *)

(** The entry of a name whose recorded symbols are [l]: the name is a key
    only once something was pushed. *)
Definition entryOf {A} (l : list A) : option (list A) :=
  match l with
  | [] => None
  | _ => Some l
  end.

Definition declaredAs (name : string) (declaration : VariableDeclaration) :
  bool :=
  match vd_name declaration with
  | BN_Identifier text => String.eqb text name
  | _ => false
  end.

(** The declaration symbols of the bindings named [name] in a statement. *)
Definition variableSymbols (name : string) (statement : Statement) :
  list Symbol :=
  match statement with
  | VariableStatement _ declarations =>
      List.map vd_symbol (List.filter (declaredAs name) declarations)
  | _ => []
  end.

(** The type symbol of a function declaration named [name]. *)
Definition functionTypeSymbols (typeChecker : TypeChecker) (name : string)
    (statement : Statement) : list Symbol :=
  match statement with
  | FunctionDeclaration _ (Some text) _ =>
      if String.eqb text name
      then [typeSymbolOf typeChecker (StatementNode statement)]
      else []
  | _ => []
  end.

Definition declaresInterface (name : string) (statement : Statement) : bool :=
  match statement with
  | InterfaceDeclaration _ text _ _ => String.eqb text name
  | _ => false
  end.

Definition membersOf (statement : Statement) : list TypeElement :=
  match statement with
  | InterfaceDeclaration _ _ _ members => members
  | _ => []
  end.

Definition interfaceTypeSymbols (typeChecker : TypeChecker) (name : string)
    (statement : Statement) : list Symbol :=
  if declaresInterface name statement
  then [typeSymbolOf typeChecker (StatementNode statement)]
  else [].

Definition constructSignatureSymbols (member : TypeElement) : list Symbol :=
  match member with
  | ConstructSignatureDeclaration _ symbol => [symbol]
  | _ => []
  end.

Definition interfaceConstructorSymbols (name : string) (statement : Statement) :
  list Symbol :=
  if declaresInterface name statement
  then flat_map constructSignatureSymbols (membersOf statement)
  else [].

Definition methodTypeSymbols (typeChecker : TypeChecker) (methodName : string)
    (member : TypeElement) : list Symbol :=
  match member with
  | MethodSignature _ (PN_Identifier text) _ =>
      if String.eqb text methodName
      then [typeSymbolOf typeChecker (TypeElementNode member)]
      else []
  | _ => []
  end.

Definition interfaceMethodSymbols (typeChecker : TypeChecker)
    (className methodName : string) (statement : Statement) : list Symbol :=
  if declaresInterface className statement
  then flat_map (methodTypeSymbols typeChecker methodName) (membersOf statement)
  else [].

(** A map of arrays holds, under every name, exactly the symbols [f]
    lists for it. *)
Definition listsAre (map : gmap string (list Symbol))
    (f : string -> list Symbol) : Prop :=
  forall name, map !! name = entryOf (f name).

(** The interface map holds an entry exactly for the names with a type
    symbol, with the three fields [fS], [fC] and [fM] list. *)
Definition interfacesAre (interfaces : gmap string InterfaceInfo)
    (fS fC : string -> list Symbol) (fM : string -> string -> list Symbol) :
  Prop :=
  forall name,
    match interfaces !! name with
    | None => fS name = [] /\ fC name = [] /\ forall m, fM name m = []
    | Some info =>
        fS name <> [] /\ symbols info = fS name /\
        constructors info = fC name /\ listsAre (methods info) (fM name)
    end.

(** The Name Index holds exactly what [stmts] declare. *)
Definition indexOf (typeChecker : TypeChecker) (stmts : list Statement)
    (index : NameIndex) : Prop :=
  listsAre (identifiers index) (fun name => flat_map (variableSymbols name) stmts) /\
  listsAre (functions index)
    (fun name => flat_map (functionTypeSymbols typeChecker name) stmts) /\
  interfacesAre (interfaces index)
    (fun name => flat_map (interfaceTypeSymbols typeChecker name) stmts)
    (fun name => flat_map (interfaceConstructorSymbols name) stmts)
    (fun name m => flat_map (interfaceMethodSymbols typeChecker name m) stmts).

(** ** Declaration files at hand *)

(** The file is on disk and the program holds its parsed form. *)
Definition fileReady (host : Host) (program : Program)
    (nodeModulesPath fileName : string) : Prop :=
  pathExistsSync host (includePath host nodeModulesPath fileName) = true /\
  is_Some (getSourceFileByPath program (includePath host nodeModulesPath fileName)).

Definition pathMissing (filePath : string) : string :=
  "(MacroManager) Path does not exist " +:+ filePath.

Definition sourceFileMissing (filePath : string) : string :=
  "(MacroManager) Could not find source file for " +:+ filePath.

(** What an exception of the constructor reports: each case names
    something the inputs really lack. *)
Inductive ConstructionError {I C K P : Type} (host : Host)
    (tables : MacroTables I C K P) (program : Program)
    (typeChecker : TypeChecker) (nodeModulesPath : string) :
  Exception -> Prop :=
  | UnnamedFunction (fileName : string) (sourceFile : SourceFile) :
      fileName ∈ INCLUDE_FILES ->
      getSourceFileByPath program (includePath host nodeModulesPath fileName)
        = Some sourceFile ->
      ~ allFunctionsNamed (statements sourceFile) ->
      ConstructionError host tables program typeChecker nodeModulesPath TypeError
  | MissingPath (fileName : string) :
      fileName ∈ INCLUDE_FILES ->
      pathExistsSync host (includePath host nodeModulesPath fileName) = false ->
      ConstructionError host tables program typeChecker nodeModulesPath
        (ProjectError (pathMissing (includePath host nodeModulesPath fileName)))
  | MissingSourceFile (fileName : string) :
      fileName ∈ INCLUDE_FILES ->
      pathExistsSync host (includePath host nodeModulesPath fileName) = true ->
      getSourceFileByPath program (includePath host nodeModulesPath fileName)
        = None ->
      ConstructionError host tables program typeChecker nodeModulesPath
        (ProjectError
           (sourceFileMissing (includePath host nodeModulesPath fileName)))
  | MissingIdentifier (index : NameIndex) (name : string) (macro : I) :
      scanDeclarations host program typeChecker nodeModulesPath = Normal index ->
      (name, macro) ∈ IDENTIFIER_MACROS tables ->
      identifierSymbols index name = None ->
      ConstructionError host tables program typeChecker nodeModulesPath
        (ProjectError (noIdentifier name))
  | MissingFunction (index : NameIndex) (name : string) (macro : C) :
      scanDeclarations host program typeChecker nodeModulesPath = Normal index ->
      (name, macro) ∈ CALL_MACROS tables ->
      functionSymbols index name = None ->
      ConstructionError host tables program typeChecker nodeModulesPath
        (ProjectError (noFunction name))
  | MissingConstructorInterface (index : NameIndex) (name : string) (macro : K) :
      scanDeclarations host program typeChecker nodeModulesPath = Normal index ->
      (name, macro) ∈ CONSTRUCTOR_MACROS tables ->
      interfaces index !! name = None ->
      ConstructionError host tables program typeChecker nodeModulesPath
        (ProjectError (noInterface name))
  | MissingMethodInterface (index : NameIndex) (className : string)
      (methodMacros : list (string * P)) :
      scanDeclarations host program typeChecker nodeModulesPath = Normal index ->
      (className, methodMacros) ∈ PROPERTY_CALL_MACROS tables ->
      interfaces index !! className = None ->
      ConstructionError host tables program typeChecker nodeModulesPath
        (ProjectError (noInterface className))
  | MissingMethod (index : NameIndex) (className : string)
      (methodMacros : list (string * P)) (methodName : string) (macro : P) :
      scanDeclarations host program typeChecker nodeModulesPath = Normal index ->
      (className, methodMacros) ∈ PROPERTY_CALL_MACROS tables ->
      (methodName, macro) ∈ methodMacros ->
      is_Some (interfaces index !! className) ->
      methodSymbols index className methodName = None ->
      ConstructionError host tables program typeChecker nodeModulesPath
        (ProjectError (noMethod className methodName)).

(** Two look-ups have the same keys and, under each key, the same symbols,
    whatever their order and number of repeats. *)
Definition sameSymbols (lookup1 lookup2 : string -> option (list Symbol)) :
  Prop :=
  forall name,
    match lookup1 name, lookup2 name with
    | Some l1, Some l2 => forall s, s ∈ l1 <-> s ∈ l2
    | None, None => True
    | _, _ => False
    end.

(** The index with the type symbols of the interfaces forgotten. *)
Definition withoutTypeSymbols (index : NameIndex) : NameIndex :=
  {| identifiers := identifiers index;
     functions := functions index;
     interfaces :=
       (fun info =>
          {| symbols := [];
             constructors := constructors info;
             methods := methods info |}) <$> interfaces index |}.

(** ** What decides the macro of a symbol *)

(** Some entry of the table reaches [s]: the scanner recorded [s] under
    the entry's name. *)
Definition reachedBy {M} (lookupName : string -> option (list Symbol))
    (entries : list (string * M)) (s : Symbol) : Prop :=
  exists name macro, (name, macro) ∈ entries /\ recordedUnder lookupName name s.

(** [macro] is the payload of the last entry of the table that reaches
    [s]. *)
Definition lastReaching {M} (lookupName : string -> option (list Symbol))
    (entries : list (string * M)) (s : Symbol) (macro : M) : Prop :=
  exists pre name post,
    entries = pre ++ (name, macro) :: post /\
    recordedUnder lookupName name s /\
    forall name' macro',
      (name', macro') ∈ post -> ~ recordedUnder lookupName name' s.

(** The same for the property-call table, read interface by interface and,
    within an interface, method by method. *)
Definition methodReachedBy {M} (index : NameIndex)
    (classes : list (string * list (string * M))) (s : Symbol) : Prop :=
  exists className methodMacros methodName macro,
    (className, methodMacros) ∈ classes /\
    (methodName, macro) ∈ methodMacros /\
    recordedUnder (methodSymbols index className) methodName s.

Definition lastMethodReaching {M} (index : NameIndex)
    (classes : list (string * list (string * M))) (s : Symbol) (macro : M) :
  Prop :=
  exists pre className mpre methodName mpost post,
    classes = pre ++ (className, mpre ++ (methodName, macro) :: mpost) :: post /\
    recordedUnder (methodSymbols index className) methodName s /\
    (forall methodName' macro',
        (methodName', macro') ∈ mpost ->
        ~ recordedUnder (methodSymbols index className) methodName' s) /\
    (forall className' methodMacros' methodName' macro',
        (className', methodMacros') ∈ post ->
        (methodName', macro') ∈ methodMacros' ->
        ~ recordedUnder (methodSymbols index className') methodName' s).

(** ** [getOrDefault] on values that may be falsy *)

(** [getOrDefault] as the source writes it, for any value type: [truthy]
    is JavaScript's truth test on the values, and [!value] holds on a
    missing key and on a stored falsy value alike. *)
Definition getOrDefaultOf {V} (truthy : V -> bool) (map : gmap string V)
    (key : string) (getDefaultValue : unit -> V) : V * gmap string V :=
  match map !! key with
  | Some value =>
      if truthy value then (value, map)
      else let value := getDefaultValue tt in (value, <[key := value]> map)
  | None => let value := getDefaultValue tt in (value, <[key := value]> map)
  end.

(** ** A small declaration surface *)

(** Three declaration files with merged interfaces, overloads,
    destructuring declarations and a quoted method name, and macro tables
    over them; the payloads are strings. *)
Module Scenario.

Definition host : Host :=
  {| pathExistsSync := fun _ => true; path_join := String.concat "/" |}.

Definition roblox : SourceFile :=
  {| statements :=
       [ VariableStatement 0
           [ {| vd_name := BN_Identifier "script"; vd_symbol := 1%positive |};
             {| vd_name := BN_ObjectBindingPattern; vd_symbol := 2%positive |} ];
         FunctionDeclaration 10 (Some "typeIs") 3%positive;
         FunctionDeclaration 20 (Some "typeIs") 3%positive;
         InterfaceDeclaration 30 "Array" 6%positive
           [ MethodSignature 31 (PN_Identifier "push") 7%positive ];
         InterfaceDeclaration 50 "Vector3Constructor" 12%positive
           [ ConstructSignatureDeclaration 51 13%positive;
             ConstructSignatureDeclaration 52 14%positive ];
         OtherStatement 60 ] |}.

Definition es : SourceFile :=
  {| statements :=
       [ VariableStatement 65
           [ {| vd_name := BN_ArrayBindingPattern; vd_symbol := 19%positive |};
             {| vd_name := BN_Identifier "game"; vd_symbol := 18%positive |} ];
         InterfaceDeclaration 70 "Array" 6%positive
           [ MethodSignature 71 (PN_Identifier "pop") 9%positive;
             MethodSignature 72 (PN_Identifier "push") 7%positive;
             MethodSignature 73 (PN_StringLiteral "quoted") 11%positive;
             OtherTypeElement 74 ];
         InterfaceDeclaration 80 "Vector3Constructor" 12%positive
           [ ConstructSignatureDeclaration 81 15%positive ] ] |}.

Definition macro_math : SourceFile := {| statements := [] |}.

Definition program : Program :=
  {| getSourceFileByPath := fun path =>
       if String.eqb path "node_modules/@rbxts/types/include/roblox.d.ts"
       then Some roblox
       else if String.eqb path "node_modules/@rbxts/types/include/es.d.ts"
       then Some es
       else if String.eqb path "node_modules/@rbxts/types/include/macro_math.d.ts"
       then Some macro_math
       else None |}.

Definition nodePos (node : Node) : nat :=
  match node with
  | StatementNode (VariableStatement pos _) => pos
  | StatementNode (FunctionDeclaration pos _ _) => pos
  | StatementNode (InterfaceDeclaration pos _ _ _) => pos
  | StatementNode (OtherStatement pos) => pos
  | TypeElementNode (MethodSignature pos _ _) => pos
  | TypeElementNode (ConstructSignatureDeclaration pos _) => pos
  | TypeElementNode (OtherTypeElement pos) => pos
  end.

(** The symbol of the type at each position. *)
Definition typeSymbols : list (nat * Symbol) :=
  [ (10, 4%positive); (20, 5%positive); (30, 6%positive); (31, 8%positive);
    (50, 12%positive); (70, 6%positive); (71, 10%positive); (72, 16%positive);
    (73, 17%positive); (80, 12%positive) ].

Definition typeChecker : TypeChecker :=
  {| getTypeAtLocation := fun node =>
       {| ty_symbol :=
            match List.find (fun entry => Nat.eqb (fst entry) (nodePos node))
                    typeSymbols with
            | Some entry => snd entry
            | None => 99%positive
            end |} |}.

Definition tables : MacroTables string string string string :=
  {| IDENTIFIER_MACROS := [("script", "scriptMacro"); ("game", "gameMacro")];
     CALL_MACROS := [("typeIs", "typeIsMacro")];
     CONSTRUCTOR_MACROS := [("Vector3Constructor", "vectorMacro")];
     PROPERTY_CALL_MACROS := [("Array", [("push", "P1")])] |}.

Definition nodeModulesPath : string := "node_modules".

Definition index : Completion NameIndex :=
  scanDeclarations host program typeChecker nodeModulesPath.

Definition manager : Completion (MacroManager string string string string) :=
  MacroManager_new host tables program typeChecker nodeModulesPath.

(** The Name Index and the registry of the scenario, evaluated. *)
Definition theIndex : NameIndex :=
  Eval vm_compute in
    match index with
    | Normal scanned => scanned
    | Throw _ => emptyIndex
    end.

Definition theManager : MacroManager string string string string :=
  Eval vm_compute in
    match manager with
    | Normal this => this
    | Throw _ =>
        {| identifierMacros := ∅; callMacros := ∅; constructorMacros := ∅;
           propertyCallMacros := ∅ |}
    end.

End Scenario.

(** ** Two macros whose targets are gone *)

Module Drift.

(** The identifier table names [script], which the scenario declares, and
    then [alpha] and [omega], which it does not. *)
Definition tables : MacroTables string string string string :=
  {| IDENTIFIER_MACROS := [("script", "scriptMacro"); ("alpha", "A"); ("omega", "B")];
     CALL_MACROS := [];
     CONSTRUCTOR_MACROS := [];
     PROPERTY_CALL_MACROS := [] |}.

End Drift.

(** ** Declaration files that are not at hand *)

(** The scenario with [es.d.ts] gone from the disk, and with
    [macro_math.d.ts] left out of the program. *)
Module Missing.

Definition host : Host :=
  {| pathExistsSync := fun path =>
       negb (String.eqb path "node_modules/@rbxts/types/include/es.d.ts");
     path_join := String.concat "/" |}.

Definition program : Program :=
  {| getSourceFileByPath := fun path =>
       if String.eqb path "node_modules/@rbxts/types/include/macro_math.d.ts"
       then None
       else getSourceFileByPath Scenario.program path |}.

End Missing.

(** ** One symbol under two names *)

(** A checker-level corner: two variable declarations carry one symbol,
    and the identifier table names both. *)
Module Aliased.

Definition roblox : SourceFile :=
  {| statements :=
       [ VariableStatement 0
           [ {| vd_name := BN_Identifier "a"; vd_symbol := 1%positive |};
             {| vd_name := BN_Identifier "b"; vd_symbol := 1%positive |};
             {| vd_name := BN_Identifier "c"; vd_symbol := 2%positive |} ] ] |}.

Definition program : Program :=
  {| getSourceFileByPath := fun path =>
       if String.eqb path "node_modules/@rbxts/types/include/roblox.d.ts"
       then Some roblox
       else Some {| statements := [] |} |}.

Definition tables : MacroTables string string string string :=
  {| IDENTIFIER_MACROS := [("a", "A"); ("b", "B"); ("c", "C")];
     CALL_MACROS := [];
     CONSTRUCTOR_MACROS := [];
     PROPERTY_CALL_MACROS := [] |}.

Definition theIndex : NameIndex :=
  Eval vm_compute in
    match scanDeclarations Scenario.host program Scenario.typeChecker
            Scenario.nodeModulesPath with
    | Normal scanned => scanned
    | Throw _ => emptyIndex
    end.

Definition theManager : MacroManager string string string string :=
  Eval vm_compute in
    match MacroManager_new Scenario.host tables program Scenario.typeChecker
            Scenario.nodeModulesPath with
    | Normal this => this
    | Throw _ =>
        {| identifierMacros := ∅; callMacros := ∅; constructorMacros := ∅;
           propertyCallMacros := ∅ |}
    end.

End Aliased.

(** ** The declarations of two files exchanged *)

Module Swapped.

Definition program : Program :=
  {| getSourceFileByPath := fun path =>
       if String.eqb path "node_modules/@rbxts/types/include/roblox.d.ts"
       then Some Scenario.es
       else if String.eqb path "node_modules/@rbxts/types/include/es.d.ts"
       then Some Scenario.roblox
       else if String.eqb path "node_modules/@rbxts/types/include/macro_math.d.ts"
       then Some Scenario.macro_math
       else None |}.

Definition theIndex : NameIndex :=
  Eval vm_compute in
    match scanDeclarations Scenario.host program Scenario.typeChecker
            Scenario.nodeModulesPath with
    | Normal scanned => scanned
    | Throw _ => emptyIndex
    end.

End Swapped.

(** ** Several interfaces with macros on their methods *)

(** Three interfaces and a property-call table over them; the checker gives
    the types of [Map.get] and [Array.push] one symbol. *)
Module Methods.

Definition roblox : SourceFile :=
  {| statements :=
       [ InterfaceDeclaration 100 "Map" 30%positive
           [ MethodSignature 101 (PN_Identifier "get") 31%positive ];
         InterfaceDeclaration 110 "Array" 6%positive
           [ MethodSignature 111 (PN_Identifier "pop") 32%positive;
             MethodSignature 112 (PN_Identifier "push") 33%positive;
             MethodSignature 113 (PN_Identifier "shift") 34%positive ];
         InterfaceDeclaration 120 "Set" 35%positive
           [ MethodSignature 121 (PN_Identifier "add") 36%positive ] ] |}.

Definition program : Program :=
  {| getSourceFileByPath := fun path =>
       if String.eqb path "node_modules/@rbxts/types/include/roblox.d.ts"
       then Some roblox
       else Some {| statements := [] |} |}.

Definition typeSymbols : list (nat * Symbol) :=
  [ (100, 30%positive); (101, 40%positive); (110, 6%positive);
    (111, 41%positive); (112, 40%positive); (113, 42%positive);
    (120, 35%positive); (121, 43%positive) ].

Definition typeChecker : TypeChecker :=
  {| getTypeAtLocation := fun node =>
       {| ty_symbol :=
            match List.find
                    (fun entry => Nat.eqb (fst entry) (Scenario.nodePos node))
                    typeSymbols with
            | Some entry => snd entry
            | None => 99%positive
            end |} |}.

Definition tables : MacroTables string string string string :=
  {| IDENTIFIER_MACROS := [];
     CALL_MACROS := [];
     CONSTRUCTOR_MACROS := [];
     PROPERTY_CALL_MACROS :=
       [ ("Map", [("get", "G")]);
         ("Array", [("pop", "P0"); ("push", "P1"); ("shift", "S")]);
         ("Set", [("add", "A")]) ] |}.

Definition theIndex : NameIndex :=
  Eval vm_compute in
    match scanDeclarations Scenario.host program typeChecker
            Scenario.nodeModulesPath with
    | Normal scanned => scanned
    | Throw _ => emptyIndex
    end.

Definition theManager : MacroManager string string string string :=
  Eval vm_compute in
    match MacroManager_new Scenario.host tables program typeChecker
            Scenario.nodeModulesPath with
    | Normal this => this
    | Throw _ =>
        {| identifierMacros := ∅; callMacros := ∅; constructorMacros := ∅;
           propertyCallMacros := ∅ |}
    end.

End Methods.

(** * Properties *)

(** ** Strings *)

Module StrFacts.

Lemma length_append (s t : string) :
  String.length (s +:+ t) = String.length s + String.length t.
Proof. induction s as [|c s IH]; simpl; [reflexivity | now rewrite IH]. Qed.

Lemma substring_all (s : string) : substring 0 (String.length s) s = s.
Proof. induction s as [|c s IH]; simpl; [reflexivity | now rewrite IH]. Qed.

Lemma substring_skip (pre t : string) :
  substring (String.length pre) (String.length t) (pre +:+ t) = t.
Proof. induction pre as [|c pre IH]; simpl; [apply substring_all | exact IH]. Qed.

Lemma substring_split (s : string) :
  forall n m, n + m = String.length s ->
    s = substring 0 n s +:+ substring n m s.
Proof.
  induction s as [|c s IH]; intros n m Hlen; simpl in Hlen.
  - assert (n = 0) as -> by lia. assert (m = 0) as -> by lia. reflexivity.
  - destruct n as [|n].
    + simpl in Hlen. subst m. simpl. now rewrite substring_all.
    + change (String c s = String c (substring 0 n s +:+ substring n m s)).
      f_equal. apply IH. lia.
Qed.

(** [Str.endsWith] answers [true] exactly on the strings that are some prefix
    followed by the search string. *)
Lemma endsWith_spec (s t : string) :
  Str.endsWith s t = true <-> exists pre, s = pre +:+ t.
Proof.
  unfold Str.endsWith. split.
  - destruct (Nat.ltb_spec (String.length s) (String.length t)) as [?|Hle];
      [discriminate|].
    intros Heq. apply String.eqb_eq in Heq.
    exists (substring 0 (String.length s - String.length t) s).
    rewrite (substring_split s (String.length s - String.length t)
               (String.length t)) at 1 by lia.
    now rewrite Heq.
  - intros [pre ->]. rewrite length_append.
    destruct (Nat.ltb_spec (String.length pre + String.length t)
                (String.length t)) as [?|_]; [lia|].
    replace (String.length pre + String.length t - String.length t)
      with (String.length pre) by lia.
    rewrite substring_skip. apply String.eqb_refl.
Qed.

Lemma endsWith_false (s t : string) :
  Str.endsWith s t = false <-> ~ exists pre, s = pre +:+ t.
Proof.
  rewrite <- endsWith_spec. destruct (Str.endsWith s t); split; intros H;
    try reflexivity; try discriminate; try (intros ?; discriminate).
  exfalso. now apply H.
Qed.

End StrFacts.

(** ** The classifier *)

Lemma isCompilableFile_with_spec (DTS_EXT TS_EXT TSX_EXT fsPath : string) :
  isCompilableFile_with DTS_EXT TS_EXT TSX_EXT fsPath = true <->
  (Str.endsWith fsPath TS_EXT = true \/ Str.endsWith fsPath TSX_EXT = true)
  /\ Str.endsWith fsPath DTS_EXT = false.
Proof.
  unfold isCompilableFile_with.
  destruct (Str.endsWith fsPath DTS_EXT).
  - split; [discriminate | intros [_ ?]; discriminate].
  - rewrite orb_true_iff. tauto.
Qed.

(** ** Loops *)

Lemma for_of_app {A S} (body : S -> A -> Completion S) (xs ys : list A) (s : S) :
  for_of body (xs ++ ys) s = let* s' := for_of body xs s in for_of body ys s'.
Proof.
  revert s. induction xs as [|x xs IH]; intros s; simpl; [reflexivity|].
  destruct (body s x); simpl; [apply IH | reflexivity].
Qed.

(** A loop whose body never throws on the elements it meets completes. *)
Lemma for_of_total {A S} (body : S -> A -> Completion S) (xs : list A) :
  (forall s x, x ∈ xs -> exists s', body s x = Normal s') ->
  forall s, exists s', for_of body xs s = Normal s'.
Proof.
  induction xs as [|x xs IH]; intros Hbody s; simpl; [eauto|].
  destruct (Hbody s x) as [s1 ->]; [left|]. simpl.
  apply IH. intros s2 y Hy. apply Hbody. now right.
Qed.

(** A property of the state that every step of the body preserves is
    preserved by the loop. *)
Lemma for_of_preserves {A S} (body : S -> A -> Completion S) (P : S -> Prop)
    (xs : list A) :
  (forall s x s', x ∈ xs -> P s -> body s x = Normal s' -> P s') ->
  forall s s', P s -> for_of body xs s = Normal s' -> P s'.
Proof.
  induction xs as [|x xs IH]; intros Hstep s s' Hs Hrun; simpl in Hrun.
  - now inversion Hrun; subst.
  - destruct (body s x) as [s1|e] eqn:Hx; simpl in Hrun; [|discriminate].
    apply (IH (fun s0 y s0' Hy => Hstep s0 y s0' (list_elem_of_further _ _ _ Hy))
             s1 s'); [|exact Hrun].
    apply (Hstep s x s1); [left | exact Hs | exact Hx].
Qed.

(** ** Binding loops *)

Section BindFacts.

Context {M : Type}.
Implicit Types (table : gmap Symbol M) (entries : list (string * M)).

Lemma setAll_lookup (symbols : list Symbol) (macro : M) table (s : Symbol) :
  setAll symbols macro table !! s =
  if decide (s ∈ symbols) then Some macro else table !! s.
Proof.
  revert table. induction symbols as [|x symbols IH]; intros table.
  - simpl. destruct (decide (s ∈ [])) as [Hin|_]; [|reflexivity].
    now apply elem_of_nil in Hin.
  - change (setAll (x :: symbols) macro table)
      with (setAll symbols macro (<[x := macro]> table)).
    rewrite IH.
    destruct (decide (s ∈ symbols)) as [Hin|Hnin].
    + rewrite decide_True; [reflexivity | now right].
    + destruct (decide (s = x)) as [->|Hne].
      * rewrite lookup_insert_eq. rewrite decide_True; [reflexivity | left].
      * rewrite lookup_insert_ne by congruence.
        rewrite decide_False; [reflexivity|].
        intros Hin. apply elem_of_cons in Hin as [?|?]; contradiction.
Qed.

Variable lookupName : string -> option (list Symbol).
Variable notFound : string -> string.

Lemma bindEntries_cons (name : string) (macro : M) entries table :
  bindEntries lookupName notFound ((name, macro) :: entries) table =
  match lookupName name with
  | None => Throw (ProjectError (notFound name))
  | Some symbols =>
      bindEntries lookupName notFound entries (setAll symbols macro table)
  end.
Proof.
  unfold bindEntries. simpl. destruct (lookupName name); reflexivity.
Qed.

(** The loop completes exactly when every entry's name is a hit. *)
Lemma bindEntries_total entries table :
  Forall (fun entry => is_Some (lookupName entry.1)) entries ->
  exists table', bindEntries lookupName notFound entries table = Normal table'.
Proof.
  intros Hall. revert table.
  induction Hall as [|[name macro] entries [symbols Hname] _ IH]; intros table.
  - now exists table.
  - rewrite bindEntries_cons. simpl in Hname. rewrite Hname. apply IH.
Qed.

Lemma bindEntries_Normal_hits entries table table' :
  bindEntries lookupName notFound entries table = Normal table' ->
  Forall (fun entry => is_Some (lookupName entry.1)) entries.
Proof.
  revert table. induction entries as [|[name macro] entries IH]; intros table.
  - constructor.
  - rewrite bindEntries_cons.
    destruct (lookupName name) as [symbols|] eqn:Hname; [|discriminate].
    intros Hrun. constructor; [simpl; rewrite Hname; eauto | eauto].
Qed.

(** The loop throws at the first entry whose name is a miss, with the
    message for that name. *)
Lemma bindEntries_first_miss (pre post : list (string * M)) (name : string)
    (macro : M) table :
  Forall (fun entry => is_Some (lookupName entry.1)) pre ->
  lookupName name = None ->
  bindEntries lookupName notFound (pre ++ (name, macro) :: post) table =
  Throw (ProjectError (notFound name)).
Proof.
  intros Hpre Hmiss. unfold bindEntries. rewrite for_of_app.
  destruct (bindEntries_total pre table Hpre) as [table1 Hrun].
  unfold bindEntries in Hrun. rewrite Hrun. simpl. now rewrite Hmiss.
Qed.

(** Every throw of the loop is the [ProjectError] for an entry whose name
    is a miss. *)
Lemma bindEntries_Throw entries table (e : Exception) :
  bindEntries lookupName notFound entries table = Throw e ->
  exists name macro,
    (name, macro) ∈ entries /\ lookupName name = None /\
    e = ProjectError (notFound name).
Proof.
  revert table. induction entries as [|[name macro] entries IH]; intros table.
  - discriminate.
  - rewrite bindEntries_cons.
    destruct (lookupName name) as [symbols|] eqn:Hname.
    + intros Hrun. destruct (IH _ Hrun) as (n & m & Hin & Hn & He).
      exists n, m. split; [now right | easy].
    + intros [= <-]. exists name, macro. split; [left | easy].
Qed.

(** Some entry's name is a miss: the loop throws. *)
Lemma bindEntries_miss entries table (name : string) (macro : M) :
  (name, macro) ∈ entries -> lookupName name = None ->
  exists message,
    bindEntries lookupName notFound entries table = Throw (ProjectError message).
Proof.
  intros Hin Hmiss.
  destruct (bindEntries lookupName notFound entries table) as [table'|e] eqn:Hrun.
  - apply bindEntries_Normal_hits in Hrun.
    rewrite Forall_forall in Hrun. specialize (Hrun _ Hin). simpl in Hrun.
    rewrite Hmiss in Hrun. now destruct Hrun.
  - apply bindEntries_Throw in Hrun as (n & m & _ & _ & ->). eauto.
Qed.

(** Last writer wins: when every entry that reaches [s] carries [macro],
    and [s] is reached by an entry or already mapped to [macro], the loop
    leaves [s] mapped to [macro]. *)
Lemma bindEntries_bound entries table table' (s : Symbol) (macro : M) :
  bindEntries lookupName notFound entries table = Normal table' ->
  (forall name' macro',
      (name', macro') ∈ entries -> recordedUnder lookupName name' s -> macro' = macro) ->
  table !! s = Some macro \/
    (exists name' macro', (name', macro') ∈ entries /\ recordedUnder lookupName name' s) ->
  table' !! s = Some macro.
Proof.
  revert table. induction entries as [|[name m] entries IH];
    intros table Hrun Hsame Hreach.
  - inversion Hrun; subst.
    destruct Hreach as [?|(n & m & Hin & _)]; [assumption|].
    now apply elem_of_nil in Hin.
  - rewrite bindEntries_cons in Hrun.
    destruct (lookupName name) as [symbols|] eqn:Hname; [|discriminate].
    apply (IH _ Hrun).
    + intros n' m' Hin. apply Hsame. now right.
    + rewrite setAll_lookup.
      destruct (decide (s ∈ symbols)) as [Hs|Hs].
      * left. f_equal. apply (Hsame name m); [left|]. now exists symbols.
      * destruct Hreach as [?|(n' & m' & Hin & Hrec)]; [now left|].
        apply elem_of_cons in Hin as [[= -> ->]|Hin].
        -- destruct Hrec as (l & Hl & Hsl). congruence.
        -- right. eauto.
Qed.

(** Nothing else is written: a symbol mapped after the loop was mapped
    before it or is a symbol of an entry with that macro. *)
Lemma bindEntries_origin entries table table' (s : Symbol) (macro : M) :
  bindEntries lookupName notFound entries table = Normal table' ->
  table' !! s = Some macro ->
  table !! s = Some macro \/
    (exists name, (name, macro) ∈ entries /\ recordedUnder lookupName name s).
Proof.
  revert table. induction entries as [|[name m] entries IH];
    intros table Hrun Hs.
  - inversion Hrun; subst. now left.
  - rewrite bindEntries_cons in Hrun.
    destruct (lookupName name) as [symbols|] eqn:Hname; [|discriminate].
    destruct (IH _ Hrun Hs) as [Hmid|(n & Hin & Hrec)].
    + rewrite setAll_lookup in Hmid.
      destruct (decide (s ∈ symbols)) as [Hsym|_]; [|now left].
      injection Hmid as ->. right. exists name. split; [left|].
      now exists symbols.
    + right. exists n. split; [now right | exact Hrec].
Qed.

End BindFacts.

(** ** The Declaration Scanner *)

Lemma pushSymbol_insert (map : gmap string (list Symbol)) (key : string)
    (symbol : Symbol) :
  pushSymbol map key symbol =
  <[key := default [] (map !! key) ++ [symbol]]> map.
Proof.
  unfold pushSymbol, getOrDefault.
  destruct (map !! key) as [array|]; simpl; [reflexivity|].
  apply insert_insert_eq.
Qed.

Lemma pushSymbol_records (map : gmap string (list Symbol)) (key : string)
    (symbol : Symbol) :
  recordedUnder (fun k => pushSymbol map key symbol !! k) key symbol.
Proof.
  rewrite pushSymbol_insert. eexists. rewrite lookup_insert_eq.
  split; [reflexivity|]. apply elem_of_app. right. left.
Qed.

Lemma pushSymbol_keeps (map : gmap string (list Symbol)) (key : string)
    (symbol : Symbol) (name : string) (s : Symbol) :
  recordedUnder (fun k => map !! k) name s ->
  recordedUnder (fun k => pushSymbol map key symbol !! k) name s.
Proof.
  intros (l & Hl & Hs). rewrite pushSymbol_insert. unfold recordedUnder.
  destruct (decide (key = name)) as [->|Hne].
  - rewrite lookup_insert_eq, Hl. simpl. eexists. split; [reflexivity|].
    apply elem_of_app. now left.
  - rewrite lookup_insert_ne by exact Hne. eauto.
Qed.

Lemma scanVariableDeclarations_keeps (declarations : list VariableDeclaration)
    (map : gmap string (list Symbol)) (name : string) (s : Symbol) :
  recordedUnder (fun k => map !! k) name s ->
  recordedUnder
    (fun k => fold_left scanVariableDeclaration declarations map !! k) name s.
Proof.
  revert map. induction declarations as [|d declarations IH]; intros map Hrec;
    simpl; [exact Hrec|].
  apply IH. unfold scanVariableDeclaration.
  destruct (vd_name d); [now apply pushSymbol_keeps | exact Hrec | exact Hrec].
Qed.

Lemma scanVariableDeclarations_records
    (declarations : list VariableDeclaration)
    (map : gmap string (list Symbol)) (d : VariableDeclaration) (name : string) :
  d ∈ declarations -> vd_name d = BN_Identifier name ->
  recordedUnder
    (fun k => fold_left scanVariableDeclaration declarations map !! k)
    name (vd_symbol d).
Proof.
  revert map. induction declarations as [|d0 declarations IH];
    intros map Hin Hname.
  - now apply elem_of_nil in Hin.
  - simpl. apply elem_of_cons in Hin as [<-|Hin]; [|now apply IH].
    apply scanVariableDeclarations_keeps. unfold scanVariableDeclaration.
    rewrite Hname. apply pushSymbol_records.
Qed.

Section ScanFacts.

Variable typeChecker : TypeChecker.

Lemma scanMember_constructors_keeps (info : InterfaceInfo)
    (member : TypeElement) (s : Symbol) :
  s ∈ constructors info -> s ∈ constructors (scanMember typeChecker info member).
Proof.
  intros Hs. destruct member as [pos [text|text|text|] sym|pos sym|pos]; simpl;
    try exact Hs.
  apply elem_of_app. now left.
Qed.

Lemma scanMember_methods_keeps (info : InterfaceInfo) (member : TypeElement)
    (name : string) (s : Symbol) :
  recordedUnder (fun k => methods info !! k) name s ->
  recordedUnder
    (fun k => methods (scanMember typeChecker info member) !! k) name s.
Proof.
  intros Hrec. destruct member as [pos [text|text|text|] sym|pos sym|pos];
    simpl; try exact Hrec.
  destruct Hrec as (l & Hl & Hs). unfold recordedUnder.
  destruct (decide (text = name)) as [->|Hne].
  - rewrite lookup_insert_eq, Hl. eexists. split; [reflexivity|].
    apply elem_of_app. now left.
  - rewrite lookup_insert_ne by exact Hne. eauto.
Qed.

Lemma scanMembers_constructors_keeps (members : list TypeElement)
    (info : InterfaceInfo) (s : Symbol) :
  s ∈ constructors info ->
  s ∈ constructors (fold_left (scanMember typeChecker) members info).
Proof.
  revert info. induction members as [|m members IH]; intros info Hs; simpl;
    [exact Hs|].
  apply IH. now apply scanMember_constructors_keeps.
Qed.

Lemma scanMembers_methods_keeps (members : list TypeElement)
    (info : InterfaceInfo) (name : string) (s : Symbol) :
  recordedUnder (fun k => methods info !! k) name s ->
  recordedUnder
    (fun k => methods (fold_left (scanMember typeChecker) members info) !! k)
    name s.
Proof.
  revert info. induction members as [|m members IH]; intros info Hs; simpl;
    [exact Hs|].
  apply IH. now apply scanMember_methods_keeps.
Qed.

Lemma scanMembers_constructors_records (members : list TypeElement)
    (info : InterfaceInfo) (pos : nat) (s : Symbol) :
  ConstructSignatureDeclaration pos s ∈ members ->
  s ∈ constructors (fold_left (scanMember typeChecker) members info).
Proof.
  revert info. induction members as [|m members IH]; intros info Hin.
  - now apply elem_of_nil in Hin.
  - simpl. apply elem_of_cons in Hin as [<-|Hin]; [|now apply IH].
    apply scanMembers_constructors_keeps. simpl. apply elem_of_app.
    right. left.
Qed.

Lemma scanMembers_methods_records (members : list TypeElement)
    (info : InterfaceInfo) (pos : nat) (name : string) (sym : Symbol) :
  MethodSignature pos (PN_Identifier name) sym ∈ members ->
  recordedUnder
    (fun k => methods (fold_left (scanMember typeChecker) members info) !! k)
    name
    (typeSymbolOf typeChecker (TypeElementNode (MethodSignature pos (PN_Identifier name) sym))).
Proof.
  revert info. induction members as [|m members IH]; intros info Hin.
  - now apply elem_of_nil in Hin.
  - simpl. apply elem_of_cons in Hin as [<-|Hin]; [|now apply IH].
    apply scanMembers_methods_keeps. simpl. eexists.
    rewrite lookup_insert_eq. split; [reflexivity|].
    apply elem_of_app. right. left.
Qed.

Lemma scanInterface_insert (interfaces : gmap string InterfaceInfo)
    (statement : Statement) (name : string) (members : list TypeElement) :
  scanInterface typeChecker interfaces statement name members =
  <[name := scannedInfo typeChecker interfaces statement name members]> interfaces.
Proof.
  unfold scanInterface, scannedInfo, getOrDefault.
  destruct (interfaces !! name) as [info|]; simpl; [reflexivity|].
  apply insert_insert_eq.
Qed.

End ScanFacts.

Section ScanOrder.

Variable typeChecker : TypeChecker.

Lemma scanInterface_constructors_keeps (interfaces : gmap string InterfaceInfo)
    (statement : Statement) (name : string) (members : list TypeElement)
    (className : string) (s : Symbol) :
  recordedUnder (fun k => constructors <$> interfaces !! k) className s ->
  recordedUnder
    (fun k =>
       constructors <$>
         scanInterface typeChecker interfaces statement name members !! k)
    className s.
Proof.
  intros (l & Hl & Hs). rewrite scanInterface_insert. unfold recordedUnder.
  destruct (decide (name = className)) as [->|Hne].
  - rewrite lookup_insert_eq. simpl. eexists. split; [reflexivity|].
    unfold scannedInfo. apply scanMembers_constructors_keeps. simpl.
    destruct (interfaces !! className) as [info|]; [|discriminate].
    simpl in Hl. injection Hl as <-. exact Hs.
  - rewrite lookup_insert_ne by exact Hne. eauto.
Qed.

Lemma scanInterface_methods_keeps (interfaces : gmap string InterfaceInfo)
    (statement : Statement) (name : string) (members : list TypeElement)
    (className methodName : string) (s : Symbol) :
  recordedUnder (methodsOf interfaces className) methodName s ->
  recordedUnder
    (methodsOf (scanInterface typeChecker interfaces statement name members)
       className)
    methodName s.
Proof.
  rewrite scanInterface_insert. unfold methodsOf.
  destruct (decide (name = className)) as [->|Hne].
  - rewrite lookup_insert_eq. unfold scannedInfo.
    destruct (interfaces !! className) as [info|].
    + intros Hrec. apply scanMembers_methods_keeps. exact Hrec.
    + intros (l & Hl & _). discriminate.
  - rewrite lookup_insert_ne by exact Hne. trivial.
Qed.

Lemma index_le_refl (a : NameIndex) : index_le a a.
Proof. now constructor. Qed.

Lemma index_le_trans (a b c : NameIndex) :
  index_le a b -> index_le b c -> index_le a c.
Proof. intros [] []. constructor; eauto. Qed.

Lemma scanStatement_grows (index index' : NameIndex) (statement : Statement) :
  scanStatement typeChecker index statement = Normal index' ->
  index_le index index'.
Proof.
  destruct statement as [pos decls|pos [text|] sym|pos name sym members|pos];
    simpl; intros Hrun; try discriminate; injection Hrun as <-;
    try apply index_le_refl;
    constructor; try (intros; assumption).
  - intros name s. apply scanVariableDeclarations_keeps.
  - intros name s. apply pushSymbol_keeps.
  - intros cls s. apply scanInterface_constructors_keeps.
  - intros cls m s. apply scanInterface_methods_keeps.
Qed.

Lemma scanStatements_grows (stmts : list Statement) (index index' : NameIndex) :
  scanStatements typeChecker stmts index = Normal index' ->
  index_le index index'.
Proof.
  unfold scanStatements.
  apply (for_of_preserves (scanStatement typeChecker) (index_le index));
    [|apply index_le_refl].
  intros s x s' _ Hle Hstep. eapply index_le_trans; [exact Hle|].
  eapply scanStatement_grows; exact Hstep.
Qed.

(** A statement of the list is scanned between the statements before it
    and those after it. *)
Lemma scanStatements_split (stmts : list Statement) (statement : Statement)
    (index index' : NameIndex) :
  statement ∈ stmts ->
  scanStatements typeChecker stmts index = Normal index' ->
  exists before after,
    scanStatement typeChecker before statement = Normal after /\
    index_le after index'.
Proof.
  intros Hin Hrun.
  apply list_elem_of_split in Hin as (pre & post & ->).
  unfold scanStatements in Hrun. rewrite for_of_app in Hrun.
  destruct (for_of (scanStatement typeChecker) pre index) as [before|]
    eqn:Hpre; [|discriminate].
  simpl in Hrun.
  destruct (scanStatement typeChecker before statement) as [after|]
    eqn:Hst; [|discriminate].
  simpl in Hrun. exists before, after. split; [exact Hst|].
  now apply scanStatements_grows with post.
Qed.

(** What the scanner records for each shape it knows. *)
Lemma scanned_identifier (stmts : list Statement) (index index' : NameIndex)
    (pos : nat) (declarations : list VariableDeclaration)
    (d : VariableDeclaration) (name : string) :
  scanStatements typeChecker stmts index = Normal index' ->
  VariableStatement pos declarations ∈ stmts ->
  d ∈ declarations -> vd_name d = BN_Identifier name ->
  recordedUnder (identifierSymbols index') name (vd_symbol d).
Proof.
  intros Hrun Hst Hd Hname.
  destruct (scanStatements_split _ _ _ _ Hst Hrun) as (b & a & Hstep & Hle).
  apply Hle. injection Hstep as <-.
  now apply scanVariableDeclarations_records.
Qed.

Lemma scanned_function (stmts : list Statement) (index index' : NameIndex)
    (pos : nat) (name : string) (sym : Symbol) :
  scanStatements typeChecker stmts index = Normal index' ->
  FunctionDeclaration pos (Some name) sym ∈ stmts ->
  recordedUnder (functionSymbols index') name
    (typeSymbolOf typeChecker
       (StatementNode (FunctionDeclaration pos (Some name) sym))).
Proof.
  intros Hrun Hst.
  destruct (scanStatements_split _ _ _ _ Hst Hrun) as (b & a & Hstep & Hle).
  apply Hle. injection Hstep as <-. apply pushSymbol_records.
Qed.

Lemma scanned_constructor (stmts : list Statement) (index index' : NameIndex)
    (pos : nat) (name : string) (sym : Symbol) (members : list TypeElement)
    (mpos : nat) (s : Symbol) :
  scanStatements typeChecker stmts index = Normal index' ->
  InterfaceDeclaration pos name sym members ∈ stmts ->
  ConstructSignatureDeclaration mpos s ∈ members ->
  recordedUnder (constructorSymbols index') name s.
Proof.
  intros Hrun Hst Hm.
  destruct (scanStatements_split _ _ _ _ Hst Hrun) as (b & a & Hstep & Hle).
  apply Hle. injection Hstep as <-.
  unfold recordedUnder, constructorSymbols. simpl.
  rewrite scanInterface_insert, lookup_insert_eq. simpl.
  eexists. split; [reflexivity|].
  unfold scannedInfo. now apply scanMembers_constructors_records with mpos.
Qed.

Lemma scanned_method (stmts : list Statement) (index index' : NameIndex)
    (pos : nat) (name : string) (sym : Symbol) (members : list TypeElement)
    (mpos : nat) (methodName : string) (msym : Symbol) :
  scanStatements typeChecker stmts index = Normal index' ->
  InterfaceDeclaration pos name sym members ∈ stmts ->
  MethodSignature mpos (PN_Identifier methodName) msym ∈ members ->
  recordedUnder (methodSymbols index' name) methodName
    (typeSymbolOf typeChecker
       (TypeElementNode (MethodSignature mpos (PN_Identifier methodName) msym))).
Proof.
  intros Hrun Hst Hm.
  destruct (scanStatements_split _ _ _ _ Hst Hrun) as (b & a & Hstep & Hle).
  apply Hle. injection Hstep as <-.
  unfold methodSymbols, methodsOf. simpl.
  rewrite scanInterface_insert, lookup_insert_eq.
  unfold scannedInfo. now apply scanMembers_methods_records.
Qed.

End ScanOrder.

(** ** The files scanned *)

Section Files.

Variables (host : Host) (program : Program) (typeChecker : TypeChecker).
Variable nodeModulesPath : string.

Lemma scanFiles_statements (fileNames : list string)
    (index index' : NameIndex) :
  for_of (scanFile host program typeChecker nodeModulesPath) fileNames index
    = Normal index' ->
  scanStatements typeChecker (statementsOf host program nodeModulesPath fileNames) index = Normal index'.
Proof.
  revert index. induction fileNames as [|f fileNames IH]; intros index;
    simpl; [trivial|].
  unfold scanFile at 1. fold (includePath host nodeModulesPath f).
  destruct (pathExistsSync host (includePath host nodeModulesPath f)); simpl; [|discriminate].
  destruct (getSourceFileByPath program (includePath host nodeModulesPath f)) as [sf|];
    simpl; [|discriminate].
  unfold scanStatements. rewrite for_of_app.
  destruct (for_of (scanStatement typeChecker) (statements sf) index)
    as [mid|]; simpl; [|discriminate].
  apply IH.
Qed.

(** A scan that completes is the scan of the statements of the three
    files, one after the other. *)
Lemma scanDeclarations_statements (index : NameIndex) :
  scanDeclarations host program typeChecker nodeModulesPath = Normal index ->
  scanStatements typeChecker (scannedStatements host program nodeModulesPath)
    emptyIndex = Normal index.
Proof. apply scanFiles_statements. Qed.

End Files.

(** ** The binding loops of the constructor *)

Lemma keyedOnce_agree {M} (entries : list (string * M)) (name : string)
    (macro1 macro2 : M) :
  keyedOnce entries -> (name, macro1) ∈ entries -> (name, macro2) ∈ entries ->
  macro1 = macro2.
Proof.
  unfold keyedOnce. induction entries as [|[n m] entries IH]; intros Hnd H1 H2.
  - now apply elem_of_nil in H1.
  - simpl in Hnd. apply NoDup_cons in Hnd as [Hfresh Hnd].
    assert (forall macro, (name, macro) ∈ entries -> name ∈ entries.*1) as Hkey.
    { intros macro Hin. apply list_elem_of_fmap. now exists (name, macro). }
    apply elem_of_cons in H1 as [H1|H1]; apply elem_of_cons in H2 as [H2|H2].
    + congruence.
    + injection H1 as -> ->. exfalso. eauto.
    + injection H2 as -> ->. exfalso. eauto.
    + now apply IH.
Qed.

Section PropertyCallFacts.

Context {M : Type}.
Variable index : NameIndex.
Implicit Types (table : gmap Symbol M)
  (classes : list (string * list (string * M))).

Lemma bindClassMethods_hit (className : string)
    (methodMacros : list (string * M)) (info : InterfaceInfo) table :
  interfaces index !! className = Some info ->
  bindClassMethods index table (className, methodMacros) =
  bindEntries (methodSymbols index className) (noMethod className)
    methodMacros table.
Proof.
  intros Hinfo. unfold bindClassMethods, methodSymbols, methodsOf.
  now rewrite Hinfo.
Qed.

Lemma bindPropertyCallMacros_cons (className : string)
    (methodMacros : list (string * M)) classes table :
  bindPropertyCallMacros index ((className, methodMacros) :: classes) table =
  match interfaces index !! className with
  | None => Throw (ProjectError (noInterface className))
  | Some _ =>
      let* table' :=
        bindEntries (methodSymbols index className) (noMethod className)
          methodMacros table in
      bindPropertyCallMacros index classes table'
  end.
Proof.
  unfold bindPropertyCallMacros. cbn [for_of].
  destruct (interfaces index !! className) as [info|] eqn:Hinfo.
  - now rewrite (bindClassMethods_hit _ _ info).
  - unfold bindClassMethods. now rewrite Hinfo.
Qed.

Lemma bindPropertyCallMacros_total classes table :
  Forall (classHits index) classes ->
  exists table', bindPropertyCallMacros index classes table = Normal table'.
Proof.
  intros Hall. revert table.
  induction Hall as [|[c ms] classes [[info Hinfo] Hms] _ IH]; intros table.
  - now exists table.
  - rewrite bindPropertyCallMacros_cons. simpl in Hinfo, Hms. rewrite Hinfo.
    destruct (bindEntries_total (methodSymbols index c) (noMethod c) ms table
                Hms) as [table1 ->].
    simpl. apply IH.
Qed.

Lemma bindPropertyCallMacros_Normal_hits classes table table' :
  bindPropertyCallMacros index classes table = Normal table' ->
  Forall (classHits index) classes.
Proof.
  revert table. induction classes as [|[c ms] classes IH]; intros table.
  - constructor.
  - rewrite bindPropertyCallMacros_cons.
    destruct (interfaces index !! c) as [info|] eqn:Hinfo; [|discriminate].
    destruct (bindEntries (methodSymbols index c) (noMethod c) ms table)
      as [table1|] eqn:Hms; [|discriminate].
    simpl. intros Hrun. constructor; [|eauto].
    split; simpl; [rewrite Hinfo; eauto|].
    eapply bindEntries_Normal_hits. exact Hms.
Qed.

(** The loop throws only [ProjectError]s. *)
Lemma bindPropertyCallMacros_Throw classes table (e : Exception) :
  bindPropertyCallMacros index classes table = Throw e ->
  exists message, e = ProjectError message.
Proof.
  revert table. induction classes as [|[c ms] classes IH]; intros table.
  - discriminate.
  - rewrite bindPropertyCallMacros_cons.
    destruct (interfaces index !! c) as [info|] eqn:Hinfo.
    + destruct (bindEntries (methodSymbols index c) (noMethod c) ms table)
        as [table1|e1] eqn:Hms; simpl.
      * apply IH.
      * intros [= <-].
        apply bindEntries_Throw in Hms as (n & m & _ & _ & ->). eauto.
    + intros [= <-]. eauto.
Qed.

(** The first entry whose interface is missing stops the loop. *)
Lemma bindPropertyCallMacros_first_interface
    (pre post : list (string * list (string * M))) (className : string)
    (methodMacros : list (string * M)) table :
  Forall (classHits index) pre ->
  interfaces index !! className = None ->
  bindPropertyCallMacros index (pre ++ (className, methodMacros) :: post) table
  = Throw (ProjectError (noInterface className)).
Proof.
  intros Hpre Hmiss.
  destruct (bindPropertyCallMacros_total pre table Hpre) as [table1 Hrun].
  unfold bindPropertyCallMacros in *. rewrite for_of_app, Hrun. simpl.
  now rewrite Hmiss.
Qed.

(** So does the first method missing from its interface. *)
Lemma bindPropertyCallMacros_first_method
    (pre post : list (string * list (string * M))) (className : string)
    (mpre mpost : list (string * M)) (methodName : string) (macro : M) table :
  Forall (classHits index) pre ->
  is_Some (interfaces index !! className) ->
  hits (methodSymbols index className) mpre ->
  methodSymbols index className methodName = None ->
  bindPropertyCallMacros index
    (pre ++ (className, mpre ++ (methodName, macro) :: mpost) :: post) table
  = Throw (ProjectError (noMethod className methodName)).
Proof.
  intros Hpre [info Hinfo] Hmpre Hmiss.
  destruct (bindPropertyCallMacros_total pre table Hpre) as [table1 Hrun].
  unfold bindPropertyCallMacros in *. rewrite for_of_app, Hrun.
  cbn [for_of andThen].
  rewrite (bindClassMethods_hit _ _ info _ Hinfo).
  now rewrite (bindEntries_first_miss _ _ mpre mpost methodName macro table1
                 Hmpre Hmiss).
Qed.

Lemma bindPropertyCallMacros_bound classes table table' (s : Symbol)
    (macro : M) :
  bindPropertyCallMacros index classes table = Normal table' ->
  (forall className methodMacros methodName macro',
      (className, methodMacros) ∈ classes ->
      (methodName, macro') ∈ methodMacros ->
      recordedUnder (methodSymbols index className) methodName s ->
      macro' = macro) ->
  table !! s = Some macro \/
    (exists className methodMacros methodName macro',
        (className, methodMacros) ∈ classes /\
        (methodName, macro') ∈ methodMacros /\
        recordedUnder (methodSymbols index className) methodName s) ->
  table' !! s = Some macro.
Proof.
  revert table. induction classes as [|[c ms] classes IH];
    intros table Hrun Hsame Hreach.
  - inversion Hrun; subst.
    destruct Hreach as [?|(c & ms & m & p & Hin & _)]; [assumption|].
    now apply elem_of_nil in Hin.
  - rewrite bindPropertyCallMacros_cons in Hrun.
    destruct (interfaces index !! c) as [info|] eqn:Hinfo; [|discriminate].
    destruct (bindEntries (methodSymbols index c) (noMethod c) ms table)
      as [table1|] eqn:Hms; [|discriminate].
    simpl in Hrun. apply (IH _ Hrun).
    + intros c' ms' m' p' Hin. apply Hsame. now right.
    + assert (forall n' m', (n', m') ∈ ms ->
                recordedUnder (methodSymbols index c) n' s -> m' = macro)
        as Hsame1.
      { intros n' m' Hin. apply (Hsame c ms n' m'); [left | exact Hin]. }
      destruct Hreach as [Hold|(c' & ms' & m' & p' & Hin & Hm & Hrec)].
      * left. apply (bindEntries_bound _ _ _ _ _ _ _ Hms Hsame1). now left.
      * apply elem_of_cons in Hin as [[= -> ->]|Hin].
        -- left. apply (bindEntries_bound _ _ _ _ _ _ _ Hms Hsame1).
           right. eauto.
        -- right. exists c', ms', m', p'. auto.
Qed.

Lemma bindPropertyCallMacros_origin classes table table' (s : Symbol)
    (macro : M) :
  bindPropertyCallMacros index classes table = Normal table' ->
  table' !! s = Some macro ->
  table !! s = Some macro \/
    (exists className methodMacros methodName,
        (className, methodMacros) ∈ classes /\
        (methodName, macro) ∈ methodMacros /\
        recordedUnder (methodSymbols index className) methodName s).
Proof.
  revert table. induction classes as [|[c ms] classes IH];
    intros table Hrun Hs.
  - inversion Hrun; subst. now left.
  - rewrite bindPropertyCallMacros_cons in Hrun.
    destruct (interfaces index !! c) as [info|] eqn:Hinfo; [|discriminate].
    destruct (bindEntries (methodSymbols index c) (noMethod c) ms table)
      as [table1|] eqn:Hms; [|discriminate].
    simpl in Hrun.
    destruct (IH _ Hrun Hs) as [Hmid|(c' & ms' & m' & Hin & Hm & Hrec)].
    + destruct (bindEntries_origin _ _ _ _ _ _ _ Hms Hmid)
        as [Hold|(m' & Hm & Hrec)]; [now left|].
      right. exists c, ms, m'. split; [left | easy].
    + right. exists c', ms', m'. split; [now right | easy].
Qed.

End PropertyCallFacts.

(** ** Shapes the scanner reads *)

Lemma fold_left_filter {A S} (step : S -> A -> S) (keep : A -> bool)
    (xs : list A) :
  (forall s x, keep x = false -> step s x = s) ->
  forall s, fold_left step (List.filter keep xs) s = fold_left step xs s.
Proof.
  intros Hskip. induction xs as [|x xs IH]; intros s; simpl; [reflexivity|].
  destruct (keep x) eqn:Hx; simpl; [apply IH|].
  rewrite (Hskip s x Hx). apply IH.
Qed.

Lemma for_of_filter {A S} (body : S -> A -> Completion S) (keep : A -> bool)
    (xs : list A) :
  (forall s x, keep x = false -> body s x = Normal s) ->
  forall s, for_of body (List.filter keep xs) s = for_of body xs s.
Proof.
  intros Hskip. induction xs as [|x xs IH]; intros s; simpl; [reflexivity|].
  destruct (keep x) eqn:Hx; simpl.
  - destruct (body s x); simpl; [apply IH | reflexivity].
  - rewrite (Hskip s x Hx). simpl. apply IH.
Qed.

Lemma scanStatement_named (typeChecker : TypeChecker) (index : NameIndex)
    (statement : Statement) :
  isUnnamedFunction statement = false ->
  exists index', scanStatement typeChecker index statement = Normal index'.
Proof.
  destruct statement as [pos decls|pos [text|] sym|pos name sym members|pos];
    simpl; intros Hnamed; try discriminate; eauto.
Qed.

Lemma scanStatement_unnamed (typeChecker : TypeChecker) (index : NameIndex)
    (statement : Statement) :
  isUnnamedFunction statement = true ->
  scanStatement typeChecker index statement = Throw TypeError.
Proof.
  destruct statement as [pos decls|pos [text|] sym|pos name sym members|pos];
    simpl; intros Hnamed; try discriminate; reflexivity.
Qed.

(** The statement loop completes, or stops with the [TypeError] of an
    unnamed function declaration. *)
Lemma scanStatements_cases (typeChecker : TypeChecker) (stmts : list Statement)
    (index : NameIndex) :
  (allFunctionsNamed stmts /\
   exists index', scanStatements typeChecker stmts index = Normal index') \/
  (~ allFunctionsNamed stmts /\
   scanStatements typeChecker stmts index = Throw TypeError).
Proof.
  revert index. induction stmts as [|st stmts IH]; intros index.
  - left. split; [constructor | now exists index].
  - unfold scanStatements. simpl.
    destruct (isUnnamedFunction st) eqn:Hst.
    + right. rewrite (scanStatement_unnamed _ _ _ Hst). split; [|reflexivity].
      intros Hall. inversion Hall; subst. congruence.
    + destruct (scanStatement_named typeChecker index st Hst) as [mid ->].
      simpl. destruct (IH mid) as [[Hall Hrun]|[Hnot Hrun]].
      * left. split; [now constructor | exact Hrun].
      * right. split; [|exact Hrun].
        intros Hall. inversion Hall; subst. contradiction.
Qed.

Lemma scanFiles_no_TypeError (host : Host) (program : Program)
    (typeChecker : TypeChecker) (nodeModulesPath : string)
    (fileNames : list string) (index : NameIndex) :
  allFunctionsNamed (statementsOf host program nodeModulesPath fileNames) ->
  (exists index',
      for_of (scanFile host program typeChecker nodeModulesPath) fileNames index
      = Normal index') \/
  (exists message,
      for_of (scanFile host program typeChecker nodeModulesPath) fileNames index
      = Throw (ProjectError message)).
Proof.
  revert index. induction fileNames as [|f fileNames IH]; intros index Hall.
  - left. now exists index.
  - simpl in *. unfold scanFile at 1 3. fold (includePath host nodeModulesPath f).
    destruct (pathExistsSync host (includePath host nodeModulesPath f)); simpl;
      [|right; eauto].
    destruct (getSourceFileByPath program (includePath host nodeModulesPath f))
      as [sf|]; simpl; [|right; eauto].
    unfold allFunctionsNamed in Hall. apply Forall_app in Hall as [Hsf Hrest].
    destruct (scanStatements_cases typeChecker (statements sf) index)
      as [[_ [mid ->]]|[Hnot _]]; [|contradiction].
    simpl. now apply IH.
Qed.

(** * The properties of the specification *)

Lemma append_assoc (s t u : string) : (s +:+ t) +:+ u = s +:+ (t +:+ u).
Proof.
  induction s as [|c s IH]; [reflexivity|].
  change (String c ((s +:+ t) +:+ u) = String c (s +:+ (t +:+ u))).
  now rewrite IH.
Qed.

(** C10. For every path, [isCompilableFile] answers [true] if and only if
    the path ends with ".ts" or ".tsx" and does not end with ".d.ts"; every
    path ending with ".d.ts" is answered [false], although it ends with
    ".ts" as well. *)
Theorem isCompilableFile_extensions (fsPath : string) :
  (isCompilableFile fsPath = true <->
   ((exists pre, fsPath = pre +:+ ".ts") \/
    (exists pre, fsPath = pre +:+ ".tsx")) /\
   ~ (exists pre, fsPath = pre +:+ ".d.ts")) /\
  (forall pre,
      isCompilableFile (pre +:+ ".d.ts") = false /\
      Str.endsWith (pre +:+ ".d.ts") ".ts" = true).
Proof.
  split.
  - unfold isCompilableFile. rewrite isCompilableFile_with_spec.
    rewrite !StrFacts.endsWith_spec, StrFacts.endsWith_false. reflexivity.
  - intros pre. split.
    + unfold isCompilableFile, isCompilableFile_with.
      assert (Str.endsWith (pre +:+ ".d.ts") Constants.DTS_EXT = true) as ->;
        [|reflexivity].
      apply StrFacts.endsWith_spec. now exists pre.
    + apply StrFacts.endsWith_spec. exists (pre +:+ ".d").
      now rewrite append_assoc.
Qed.

(** C6. Scanning a function declaration statement appends to the function
    Name Index, under the declared name, the symbol of the type the checker
    resolves for the statement; the other entries and the other two maps
    are unchanged, and the statement's own declaration symbol is what was
    appended only where the two symbols coincide. *)
Theorem function_symbol_is_type_symbol (typeChecker : TypeChecker)
    (index : NameIndex) (pos : nat) (name : string) (sym : Symbol) :
  let statement := FunctionDeclaration pos (Some name) sym in
  let recorded := ty_symbol (getTypeAtLocation typeChecker (StatementNode statement)) in
  exists index',
    scanStatement typeChecker index statement = Normal index' /\
    functionSymbols index' name
      = Some (default [] (functionSymbols index name) ++ [recorded]) /\
    (forall other, other <> name ->
       functionSymbols index' other = functionSymbols index other) /\
    identifiers index' = identifiers index /\
    interfaces index' = interfaces index /\
    (last (default [] (functionSymbols index' name)) = Some sym
     <-> recorded = sym).
Proof.
  intros statement recorded. eexists. split; [reflexivity|].
  unfold functionSymbols. simpl. fold statement. fold recorded.
  rewrite pushSymbol_insert. rewrite lookup_insert_eq.
  repeat split; try reflexivity.
  - intros other Hne. now rewrite lookup_insert_ne.
  - simpl. rewrite last_snoc. congruence.
  - simpl. rewrite last_snoc. congruence.
Qed.

(** C8. A variable statement is scanned as if its destructuring
    declarations were absent, an interface as if its method signatures
    without a simple name (and its members of other kinds) were absent, and
    a statement list as if the statements that are neither variable
    statements, function declarations nor interface declarations were
    absent; each such shape leaves the Name Index as it was. *)
Theorem scanner_reads_simple_names_only (typeChecker : TypeChecker) :
  (forall index pos declarations,
      scanStatement typeChecker index (VariableStatement pos declarations)
      = scanStatement typeChecker index
          (VariableStatement pos (List.filter hasSimpleName declarations))) /\
  (forall identifiers symbol,
      scanVariableDeclaration identifiers
        {| vd_name := BN_ObjectBindingPattern; vd_symbol := symbol |}
      = identifiers /\
      scanVariableDeclaration identifiers
        {| vd_name := BN_ArrayBindingPattern; vd_symbol := symbol |}
      = identifiers) /\
  (forall interfaces statement name members,
      scanInterface typeChecker interfaces statement name members
      = scanInterface typeChecker interfaces statement name
          (List.filter isRecordedMember members)) /\
  (forall info pos text symbol,
      scanMember typeChecker info
        (MethodSignature pos (PN_StringLiteral text) symbol) = info /\
      scanMember typeChecker info
        (MethodSignature pos (PN_NumericLiteral text) symbol) = info /\
      scanMember typeChecker info
        (MethodSignature pos PN_ComputedPropertyName symbol) = info) /\
  (forall stmts index,
      scanStatements typeChecker stmts index
      = scanStatements typeChecker (List.filter isScannedStatement stmts) index) /\
  (forall index pos,
      scanStatement typeChecker index (OtherStatement pos) = Normal index).
Proof.
  split; [|split; [|split; [|split; [|split]]]].
  - intros index pos declarations. cbn [scanStatement].
    rewrite fold_left_filter; [reflexivity|].
    intros ids [[text| |] sym]; unfold hasSimpleName, scanVariableDeclaration;
      simpl; intros; reflexivity || discriminate.
  - intros ids symbol. split; reflexivity.
  - intros interfaces statement name members. unfold scanInterface.
    destruct (getOrDefault interfaces name _) as [info rest].
    rewrite fold_left_filter; [reflexivity|].
    intros info' [p [text|text|text|] s|p s|p]; simpl; intros;
      reflexivity || discriminate.
  - intros info pos text symbol. repeat split.
  - intros stmts index. unfold scanStatements. symmetry. apply for_of_filter.
    intros idx [p ds|p n s|p n s ms|p]; simpl; intros;
      reflexivity || discriminate.
  - reflexivity.
Qed.

(** C9. The statement loop of the scanner completes exactly when every
    function declaration it meets carries a name; otherwise it stops with
    the engine's [TypeError] for the read through the absent name, which is
    not a [ProjectError]. When the function declarations of the three
    declaration files are all named, the scan never stops with that
    [TypeError]. *)
Theorem scanner_total_iff_functions_named (typeChecker : TypeChecker)
    (stmts : list Statement) (index : NameIndex) :
  (allFunctionsNamed stmts <->
   exists index', scanStatements typeChecker stmts index = Normal index') /\
  (~ allFunctionsNamed stmts <->
   scanStatements typeChecker stmts index = Throw TypeError) /\
  (forall pos sym,
      scanStatement typeChecker index (FunctionDeclaration pos None sym)
      = Throw TypeError) /\
  isProjectError TypeError = false /\
  (forall host program nodeModulesPath,
      allFunctionsNamed (scannedStatements host program nodeModulesPath) ->
      scanDeclarations host program typeChecker nodeModulesPath
      <> Throw TypeError).
Proof.
  destruct (scanStatements_cases typeChecker stmts index)
    as [[Hall [index' Hrun]]|[Hnot Hrun]].
  - repeat split; try reflexivity; eauto; try (rewrite Hrun; discriminate).
    + intros Hnot. contradiction.
    + intros host program nmp Hnamed.
      destruct (scanFiles_no_TypeError host program typeChecker nmp
                  INCLUDE_FILES emptyIndex Hnamed) as [[i Hi]|[m Hm]];
        unfold scanDeclarations; rewrite ?Hi, ?Hm; discriminate.
  - repeat split; try reflexivity; eauto; try contradiction.
    + intros [index' Hrun']. rewrite Hrun in Hrun'. discriminate.
    + intros host program nmp Hnamed.
      destruct (scanFiles_no_TypeError host program typeChecker nmp
                  INCLUDE_FILES emptyIndex Hnamed) as [[i Hi]|[m Hm]];
        unfold scanDeclarations; rewrite ?Hi, ?Hm; discriminate.
Qed.

(** ** The registry after construction *)

Lemma bindEntries_keyed {M} (lookupName : string -> option (list Symbol))
    (notFound : string -> string) (entries : list (string * M))
    (table table' : gmap Symbol M) (name : string) (macro : M) (s : Symbol) :
  bindEntries lookupName notFound entries table = Normal table' ->
  keyedOnce entries -> unshared lookupName entries ->
  (name, macro) ∈ entries -> recordedUnder lookupName name s ->
  table' !! s = Some macro.
Proof.
  intros Hrun Hkeys Hsym Hin Hrec.
  apply (bindEntries_bound _ _ _ _ _ _ _ Hrun).
  - intros name' macro' Hin' Hrec'.
    assert (name' = name) as -> by exact (Hsym _ _ _ _ _ Hin' Hin Hrec' Hrec).
    exact (keyedOnce_agree _ _ _ _ Hkeys Hin' Hin).
  - right. eauto.
Qed.

Lemma bindPropertyCallMacros_keyed {M} (index : NameIndex)
    (classes : list (string * list (string * M))) (table table' : gmap Symbol M)
    (className : string) (methodMacros : list (string * M))
    (methodName : string) (macro : M) (s : Symbol) :
  bindPropertyCallMacros index classes table = Normal table' ->
  keyedOnceNested classes -> unsharedMethods index classes ->
  (className, methodMacros) ∈ classes -> (methodName, macro) ∈ methodMacros ->
  recordedUnder (methodSymbols index className) methodName s ->
  table' !! s = Some macro.
Proof.
  intros Hrun [Hkeys Hinner] Hsym Hc Hm Hrec.
  apply (bindPropertyCallMacros_bound _ _ _ _ _ _ Hrun).
  - intros c' ms' m' p' Hc' Hm' Hrec'.
    destruct (Hsym _ _ _ _ _ _ _ _ _ Hc' Hm' Hc Hm Hrec' Hrec) as [-> ->].
    assert (ms' = methodMacros) as -> by exact (keyedOnce_agree _ _ _ _ Hkeys Hc' Hc).
    rewrite Forall_forall in Hinner.
    exact (keyedOnce_agree _ _ _ _ (Hinner _ Hc) Hm' Hm).
  - right. exists className, methodMacros, methodName, macro. auto.
Qed.

Section Construction.

Context {IdentifierMacro CallMacro ConstructorMacro PropertyCallMacro : Type}.

Abbreviation Tables :=
  (MacroTables IdentifierMacro CallMacro ConstructorMacro PropertyCallMacro).
Abbreviation Manager :=
  (MacroManager IdentifierMacro CallMacro ConstructorMacro PropertyCallMacro).

Lemma bindMacros_Normal (tables : Tables) (index : NameIndex) (this : Manager) :
  bindMacros tables index = Normal this ->
  bindIdentifierMacros index (IDENTIFIER_MACROS tables) ∅
    = Normal (identifierMacros this) /\
  bindCallMacros index (CALL_MACROS tables) ∅ = Normal (callMacros this) /\
  bindConstructorMacros index (CONSTRUCTOR_MACROS tables) ∅
    = Normal (constructorMacros this) /\
  bindPropertyCallMacros index (PROPERTY_CALL_MACROS tables) ∅
    = Normal (propertyCallMacros this).
Proof.
  unfold bindMacros.
  destruct (bindIdentifierMacros index _ ∅) as [t1|]; [|discriminate].
  destruct (bindCallMacros index _ ∅) as [t2|]; [|discriminate].
  destruct (bindConstructorMacros index _ ∅) as [t3|]; [|discriminate].
  destruct (bindPropertyCallMacros index _ ∅) as [t4|]; [|discriminate].
  simpl. intros [= <-]. simpl. auto.
Qed.

(** The binding loops throw only [ProjectError]s. *)
Lemma bindMacros_Throw (tables : Tables) (index : NameIndex) (e : Exception) :
  bindMacros tables index = Throw e -> exists message, e = ProjectError message.
Proof.
  unfold bindMacros, bindIdentifierMacros, bindCallMacros, bindConstructorMacros.
  destruct (bindEntries _ noIdentifier _ ∅) as [t1|e1] eqn:H1; simpl.
  2:{ intros [= <-]. apply bindEntries_Throw in H1 as (n & m & _ & _ & ->). eauto. }
  destruct (bindEntries _ noFunction _ ∅) as [t2|e2] eqn:H2; simpl.
  2:{ intros [= <-]. apply bindEntries_Throw in H2 as (n & m & _ & _ & ->). eauto. }
  destruct (bindEntries _ noInterface _ ∅) as [t3|e3] eqn:H3; simpl.
  2:{ intros [= <-]. apply bindEntries_Throw in H3 as (n & m & _ & _ & ->). eauto. }
  destruct (bindPropertyCallMacros index _ ∅) as [t4|e4] eqn:H4; simpl.
  - discriminate.
  - intros [= <-]. eapply bindPropertyCallMacros_Throw. exact H4.
Qed.

Variables (host : Host) (tables : Tables) (program : Program).
Variables (typeChecker : TypeChecker) (nodeModulesPath : string).

Lemma MacroManager_new_scanned (index : NameIndex) :
  scanDeclarations host program typeChecker nodeModulesPath = Normal index ->
  MacroManager_new host tables program typeChecker nodeModulesPath
  = bindMacros tables index.
Proof. intros Hscan. unfold MacroManager_new. now rewrite Hscan. Qed.

(** C1. After a successful construction, every symbol the scanner recorded
    under a name of the identifier-macro table is mapped by the registry to
    that name's macro, and likewise for the call-macro table and the
    function index; in particular the symbols of two overloads of a function
    named in the call-macro table are both mapped to its macro. The tables
    list each key once and a symbol identifies one declared name. *)
Theorem identifier_and_call_symbols_bound (this : Manager) (index : NameIndex) :
  MacroManager_new host tables program typeChecker nodeModulesPath
    = Normal this ->
  scanDeclarations host program typeChecker nodeModulesPath = Normal index ->
  keyedOnce (IDENTIFIER_MACROS tables) ->
  keyedOnce (CALL_MACROS tables) ->
  unshared (identifierSymbols index) (IDENTIFIER_MACROS tables) ->
  unshared (functionSymbols index) (CALL_MACROS tables) ->
  (forall name macro s,
      (name, macro) ∈ IDENTIFIER_MACROS tables ->
      recordedUnder (identifierSymbols index) name s ->
      getIdentifierMacro this s = Some macro) /\
  (forall name macro s,
      (name, macro) ∈ CALL_MACROS tables ->
      recordedUnder (functionSymbols index) name s ->
      getCallMacro this s = Some macro) /\
  (forall name macro pos1 sym1 pos2 sym2,
      (name, macro) ∈ CALL_MACROS tables ->
      let overload1 := FunctionDeclaration pos1 (Some name) sym1 in
      let overload2 := FunctionDeclaration pos2 (Some name) sym2 in
      overload1 ∈ scannedStatements host program nodeModulesPath ->
      overload2 ∈ scannedStatements host program nodeModulesPath ->
      getCallMacro this (typeSymbolOf typeChecker (StatementNode overload1))
        = Some macro /\
      getCallMacro this (typeSymbolOf typeChecker (StatementNode overload2))
        = Some macro).
Proof.
  intros Hnew Hscan Hk1 Hk2 Hs1 Hs2.
  rewrite (MacroManager_new_scanned _ Hscan) in Hnew.
  apply bindMacros_Normal in Hnew as (Hid & Hcall & _ & _).
  assert (forall name macro s,
             (name, macro) ∈ CALL_MACROS tables ->
             recordedUnder (functionSymbols index) name s ->
             getCallMacro this s = Some macro) as Hcalls.
  { intros name macro s Hin Hrec.
    exact (bindEntries_keyed _ _ _ _ _ _ _ _ Hcall Hk2 Hs2 Hin Hrec). }
  split; [|split; [exact Hcalls|]].
  - intros name macro s Hin Hrec.
    exact (bindEntries_keyed _ _ _ _ _ _ _ _ Hid Hk1 Hs1 Hin Hrec).
  - intros name macro pos1 sym1 pos2 sym2 Hin o1 o2 Ho1 Ho2.
    apply scanDeclarations_statements in Hscan.
    split; apply (Hcalls name macro); try exact Hin.
    + exact (scanned_function _ _ _ _ _ _ _ Hscan Ho1).
    + exact (scanned_function _ _ _ _ _ _ _ Hscan Ho2).
Qed.

(** C4. After a successful construction, every construct-signature symbol
    recorded for an interface named in the constructor-macro table is mapped
    by the registry to that interface's macro; this covers the construct
    signatures of every declaration of that interface name in the scanned
    files. The table lists each key once and a symbol identifies one
    declared name. *)
Theorem constructor_symbols_bound (this : Manager) (index : NameIndex) :
  MacroManager_new host tables program typeChecker nodeModulesPath
    = Normal this ->
  scanDeclarations host program typeChecker nodeModulesPath = Normal index ->
  keyedOnce (CONSTRUCTOR_MACROS tables) ->
  unshared (constructorSymbols index) (CONSTRUCTOR_MACROS tables) ->
  (forall className macro s,
      (className, macro) ∈ CONSTRUCTOR_MACROS tables ->
      recordedUnder (constructorSymbols index) className s ->
      getConstructorMacro this s = Some macro) /\
  (forall className macro pos sym members mpos s,
      (className, macro) ∈ CONSTRUCTOR_MACROS tables ->
      InterfaceDeclaration pos className sym members
        ∈ scannedStatements host program nodeModulesPath ->
      ConstructSignatureDeclaration mpos s ∈ members ->
      getConstructorMacro this s = Some macro).
Proof.
  intros Hnew Hscan Hk Hs.
  rewrite (MacroManager_new_scanned _ Hscan) in Hnew.
  apply bindMacros_Normal in Hnew as (_ & _ & Hctor & _).
  assert (forall className macro s,
             (className, macro) ∈ CONSTRUCTOR_MACROS tables ->
             recordedUnder (constructorSymbols index) className s ->
             getConstructorMacro this s = Some macro) as Hbound.
  { intros name macro s Hin Hrec.
    exact (bindEntries_keyed _ _ _ _ _ _ _ _ Hctor Hk Hs Hin Hrec). }
  split; [exact Hbound|].
  intros className macro pos sym members mpos s Hin Hdecl Hmember.
  apply scanDeclarations_statements in Hscan.
  apply (Hbound className macro s Hin).
  exact (scanned_constructor _ _ _ _ _ _ _ _ _ _ Hscan Hdecl Hmember).
Qed.

(** C3. After a successful construction, every symbol in the method list of
    an (interface, method) pair of the property-call-macro table is mapped by
    the registry to that pair's macro; this covers the method signatures of
    that name in every declaration of that interface name in the scanned
    files, overloads and merged declarations alike. The table lists each key
    once and a symbol identifies one declared method. *)
Theorem method_symbols_bound (this : Manager) (index : NameIndex) :
  MacroManager_new host tables program typeChecker nodeModulesPath
    = Normal this ->
  scanDeclarations host program typeChecker nodeModulesPath = Normal index ->
  keyedOnceNested (PROPERTY_CALL_MACROS tables) ->
  unsharedMethods index (PROPERTY_CALL_MACROS tables) ->
  (forall className methodMacros methodName macro s,
      (className, methodMacros) ∈ PROPERTY_CALL_MACROS tables ->
      (methodName, macro) ∈ methodMacros ->
      recordedUnder (methodSymbols index className) methodName s ->
      getPropertyCallMacro this s = Some macro) /\
  (forall className methodMacros methodName macro pos sym members mpos msym,
      (className, methodMacros) ∈ PROPERTY_CALL_MACROS tables ->
      (methodName, macro) ∈ methodMacros ->
      InterfaceDeclaration pos className sym members
        ∈ scannedStatements host program nodeModulesPath ->
      let member := MethodSignature mpos (PN_Identifier methodName) msym in
      member ∈ members ->
      getPropertyCallMacro this (typeSymbolOf typeChecker (TypeElementNode member))
        = Some macro).
Proof.
  intros Hnew Hscan Hk Hs.
  rewrite (MacroManager_new_scanned _ Hscan) in Hnew.
  apply bindMacros_Normal in Hnew as (_ & _ & _ & Hpcm).
  assert (forall className methodMacros methodName macro s,
             (className, methodMacros) ∈ PROPERTY_CALL_MACROS tables ->
             (methodName, macro) ∈ methodMacros ->
             recordedUnder (methodSymbols index className) methodName s ->
             getPropertyCallMacro this s = Some macro) as Hbound.
  { intros c ms m p s Hc Hm Hrec.
    exact (bindPropertyCallMacros_keyed _ _ _ _ _ _ _ _ _ Hpcm Hk Hs Hc Hm Hrec). }
  split; [exact Hbound|].
  intros c ms m p pos sym members mpos msym Hc Hm Hdecl member Hmember.
  apply scanDeclarations_statements in Hscan.
  apply (Hbound c ms m p _ Hc Hm).
  exact (scanned_method _ _ _ _ _ _ _ _ _ _ _ Hscan Hdecl Hmember).
Qed.

(** C7. When the property-call-macro table holds the single entry
    [{ className: { methodName: macro } }], a successful construction maps
    the symbols recorded for that method to [macro] and leaves every other
    symbol, those of the other methods of the interface among them, without
    a property-call macro. *)
Theorem other_methods_stay_unbound (this : Manager) (index : NameIndex)
    (className methodName : string) (macro : PropertyCallMacro) :
  PROPERTY_CALL_MACROS tables = [(className, [(methodName, macro)])] ->
  MacroManager_new host tables program typeChecker nodeModulesPath
    = Normal this ->
  scanDeclarations host program typeChecker nodeModulesPath = Normal index ->
  forall s,
    (recordedUnder (methodSymbols index className) methodName s ->
     getPropertyCallMacro this s = Some macro) /\
    (~ recordedUnder (methodSymbols index className) methodName s ->
     getPropertyCallMacro this s = None).
Proof.
  intros Htable Hnew Hscan s.
  rewrite (MacroManager_new_scanned _ Hscan) in Hnew.
  apply bindMacros_Normal in Hnew as (_ & _ & _ & Hpcm).
  rewrite Htable in Hpcm. split.
  - intros Hrec. apply (bindPropertyCallMacros_bound _ _ _ _ _ _ Hpcm).
    + intros c ms m p Hc Hm _.
      apply list_elem_of_singleton in Hc. injection Hc as -> ->.
      apply list_elem_of_singleton in Hm. now injection Hm as _ ->.
    + right. exists className, [(methodName, macro)], methodName, macro.
      repeat split; try exact Hrec; apply list_elem_of_singleton; reflexivity.
  - intros Hnot. unfold getPropertyCallMacro.
    destruct (propertyCallMacros this !! s) as [p|] eqn:Hs; [|reflexivity].
    destruct (bindPropertyCallMacros_origin _ _ _ _ _ _ Hpcm Hs)
      as [Hempty|(c & ms & m & Hc & Hm & Hrec)].
    + now rewrite lookup_empty in Hempty.
    + apply list_elem_of_singleton in Hc. injection Hc as -> ->.
      apply list_elem_of_singleton in Hm. injection Hm as -> _.
      contradiction.
Qed.

End Construction.

(** ** Unbound macro targets *)

Section UnboundTargets.

Context {IdentifierMacro CallMacro ConstructorMacro PropertyCallMacro : Type}.

Abbreviation Tables' :=
  (MacroTables IdentifierMacro CallMacro ConstructorMacro PropertyCallMacro).

Lemma hits_absent {M} (lookupName : string -> option (list Symbol))
    (entries : list (string * M)) (name : string) (macro : M) :
  hits lookupName entries -> (name, macro) ∈ entries ->
  lookupName name = None -> False.
Proof.
  unfold hits. rewrite Forall_forall. intros Hall Hin Hmiss.
  specialize (Hall _ Hin). simpl in Hall. rewrite Hmiss in Hall.
  now destruct Hall.
Qed.

Lemma bindMacros_absent (tables : Tables') (index : NameIndex) :
  someTargetAbsent tables index ->
  exists message, bindMacros tables index = Throw (ProjectError message).
Proof.
  intros Habsent.
  destruct (bindMacros tables index) as [this|e] eqn:Hrun.
  - exfalso. apply bindMacros_Normal in Hrun as (Hid & Hcall & Hctor & Hpcm).
    apply bindEntries_Normal_hits in Hid, Hcall, Hctor.
    apply bindPropertyCallMacros_Normal_hits in Hpcm.
    destruct Habsent as [(n & m & Hin & Hn)|[(n & m & Hin & Hn)|
                         [(n & m & Hin & Hn)|(c & ms & Hin & Hc)]]].
    + exact (hits_absent (identifierSymbols index) _ _ _ Hid Hin Hn).
    + exact (hits_absent (functionSymbols index) _ _ _ Hcall Hin Hn).
    + apply (hits_absent (constructorSymbols index) _ _ _ Hctor Hin).
      unfold constructorSymbols. now rewrite Hn.
    + rewrite Forall_forall in Hpcm. destruct (Hpcm _ Hin) as [Hsome Hms].
      simpl in Hsome, Hms. destruct Hc as [Hc|(m & p & Hm & Hmiss)].
      * rewrite Hc in Hsome. now destruct Hsome.
      * exact (hits_absent _ _ _ _ Hms Hm Hmiss).
  - apply bindMacros_Throw in Hrun as [message ->]. eauto.
Qed.

Variables (host : Host) (tables : Tables') (program : Program).
Variables (typeChecker : TypeChecker) (nodeModulesPath : string).

(** C2, as the code has it. When the scan has completed and some entry of
    a macro table names a target absent from its Name Index, construction
    raises a [ProjectError] and yields no registry. The message is the one
    of the first absent target in binding order: the identifier table, the
    call table, the constructor table, the property-call table, each in the
    order of its entries; it states that identifier, function or interface
    name, or, for a method absent from a present interface, the
    interface.method pair. *)
Theorem unbound_target_first_miss (index : NameIndex) :
  scanDeclarations host program typeChecker nodeModulesPath = Normal index ->
  let construction :=
    MacroManager_new host tables program typeChecker nodeModulesPath in
  (someTargetAbsent tables index ->
   exists message, construction = Throw (ProjectError message)) /\
  (forall pre name macro post,
      IDENTIFIER_MACROS tables = pre ++ (name, macro) :: post ->
      hits (identifierSymbols index) pre ->
      identifierSymbols index name = None ->
      construction
      = Throw (ProjectError ("(MacroManager) No identifier found for " +:+ name))) /\
  (forall pre name macro post,
      hits (identifierSymbols index) (IDENTIFIER_MACROS tables) ->
      CALL_MACROS tables = pre ++ (name, macro) :: post ->
      hits (functionSymbols index) pre ->
      functionSymbols index name = None ->
      construction
      = Throw (ProjectError ("(MacroManager) No function found for " +:+ name))) /\
  (forall pre name macro post,
      hits (identifierSymbols index) (IDENTIFIER_MACROS tables) ->
      hits (functionSymbols index) (CALL_MACROS tables) ->
      CONSTRUCTOR_MACROS tables = pre ++ (name, macro) :: post ->
      hits (constructorSymbols index) pre ->
      interfaces index !! name = None ->
      construction
      = Throw (ProjectError ("(MacroManager) No interface found for " +:+ name))) /\
  (forall pre className methodMacros post,
      hits (identifierSymbols index) (IDENTIFIER_MACROS tables) ->
      hits (functionSymbols index) (CALL_MACROS tables) ->
      hits (constructorSymbols index) (CONSTRUCTOR_MACROS tables) ->
      PROPERTY_CALL_MACROS tables = pre ++ (className, methodMacros) :: post ->
      Forall (classHits index) pre ->
      interfaces index !! className = None ->
      construction
      = Throw (ProjectError
                 ("(MacroManager) No interface found for " +:+ className))) /\
  (forall pre className mpre methodName macro mpost post,
      hits (identifierSymbols index) (IDENTIFIER_MACROS tables) ->
      hits (functionSymbols index) (CALL_MACROS tables) ->
      hits (constructorSymbols index) (CONSTRUCTOR_MACROS tables) ->
      PROPERTY_CALL_MACROS tables
      = pre ++ (className, mpre ++ (methodName, macro) :: mpost) :: post ->
      Forall (classHits index) pre ->
      is_Some (interfaces index !! className) ->
      hits (methodSymbols index className) mpre ->
      methodSymbols index className methodName = None ->
      construction
      = Throw (ProjectError
                 ("(MacroManager) No method found for " +:+ className +:+ "."
                  +:+ methodName))).
Proof.
  intros Hscan construction. subst construction.
  rewrite (MacroManager_new_scanned _ _ _ _ _ _ Hscan).
  split; [apply bindMacros_absent|].
  unfold bindMacros, bindIdentifierMacros, bindCallMacros, bindConstructorMacros.
  split; [|split; [|split; [|split]]].
  - intros pre name macro post -> Hpre Hmiss.
    now rewrite (bindEntries_first_miss (identifierSymbols index) noIdentifier
                   pre post name macro ∅ Hpre Hmiss).
  - intros pre name macro post Hid -> Hpre Hmiss.
    destruct (bindEntries_total (identifierSymbols index) noIdentifier _ ∅ Hid)
      as [t1 H1].
    unfold identifierSymbols in H1. rewrite H1. simpl.
    now rewrite (bindEntries_first_miss (functionSymbols index) noFunction
                   pre post name macro ∅ Hpre Hmiss).
  - intros pre name macro post Hid Hcall -> Hpre Hmiss.
    destruct (bindEntries_total (identifierSymbols index) noIdentifier _ ∅ Hid)
      as [t1 H1].
    destruct (bindEntries_total (functionSymbols index) noFunction _ ∅ Hcall)
      as [t2 H2].
    unfold identifierSymbols in H1. unfold functionSymbols in H2.
    rewrite H1, H2. simpl.
    assert (constructorSymbols index name = None) as Hmiss'
      by (unfold constructorSymbols; now rewrite Hmiss).
    now rewrite (bindEntries_first_miss (constructorSymbols index) noInterface
                   pre post name macro ∅ Hpre Hmiss').
  - intros pre c ms post Hid Hcall Hctor -> Hpre Hmiss.
    destruct (bindEntries_total (identifierSymbols index) noIdentifier _ ∅ Hid)
      as [t1 H1].
    destruct (bindEntries_total (functionSymbols index) noFunction _ ∅ Hcall)
      as [t2 H2].
    destruct (bindEntries_total (constructorSymbols index) noInterface _ ∅ Hctor)
      as [t3 H3].
    unfold identifierSymbols in H1. unfold functionSymbols in H2.
    unfold constructorSymbols in H3. rewrite H1, H2, H3. simpl.
    now rewrite (bindPropertyCallMacros_first_interface index pre post c ms ∅
                   Hpre Hmiss).
  - intros pre c mpre m p mpost post Hid Hcall Hctor -> Hpre Hc Hmpre Hmiss.
    destruct (bindEntries_total (identifierSymbols index) noIdentifier _ ∅ Hid)
      as [t1 H1].
    destruct (bindEntries_total (functionSymbols index) noFunction _ ∅ Hcall)
      as [t2 H2].
    destruct (bindEntries_total (constructorSymbols index) noInterface _ ∅ Hctor)
      as [t3 H3].
    unfold identifierSymbols in H1. unfold functionSymbols in H2.
    unfold constructorSymbols in H3. rewrite H1, H2, H3. simpl.
    now rewrite (bindPropertyCallMacros_first_method index pre post c mpre mpost
                   m p ∅ Hpre Hc Hmpre Hmiss).
Qed.

End UnboundTargets.

(** ** The scenario, checked *)

Lemma scenario_index_eq :
  scanDeclarations Scenario.host Scenario.program Scenario.typeChecker
    Scenario.nodeModulesPath
  = Normal Scenario.theIndex.
Proof. vm_compute. reflexivity. Qed.

Lemma scenario_manager_eq :
  MacroManager_new Scenario.host Scenario.tables Scenario.program
    Scenario.typeChecker Scenario.nodeModulesPath
  = Normal Scenario.theManager.
Proof. vm_compute. reflexivity. Qed.

Ltac split_elem_of :=
  repeat match goal with
    | H : _ ∈ [] |- _ => apply elem_of_nil in H; contradiction
    | H : _ ∈ _ :: _ |- _ => apply elem_of_cons in H as [H|H]
    | H : (_, _) = (_, _) |- _ => injection H as ? ?; subst
    end.

Ltac read_recorded :=
  repeat match goal with
    | H : recordedUnder _ _ _ |- _ =>
        let l := fresh "l" in
        let Hl := fresh "Hl" in
        let Hs := fresh "Hs" in
        destruct H as (l & Hl & Hs); vm_compute in Hl;
        try discriminate Hl; injection Hl as <-
    end.

Ltac in_list := apply list_elem_of_In; vm_compute; tauto.

Ltac is_recorded :=
  eexists; split; [vm_compute; reflexivity | in_list].

Lemma scenario_identifiers_unshared :
  unshared (identifierSymbols Scenario.theIndex)
    (IDENTIFIER_MACROS Scenario.tables).
Proof.
  intros n1 m1 n2 m2 s H1 H2 R1 R2. simpl in H1, H2.
  split_elem_of; read_recorded; split_elem_of; congruence.
Qed.

Lemma scenario_functions_unshared :
  unshared (functionSymbols Scenario.theIndex) (CALL_MACROS Scenario.tables).
Proof.
  intros n1 m1 n2 m2 s H1 H2 R1 R2. simpl in H1, H2.
  split_elem_of; reflexivity.
Qed.

Lemma scenario_constructors_unshared :
  unshared (constructorSymbols Scenario.theIndex)
    (CONSTRUCTOR_MACROS Scenario.tables).
Proof.
  intros n1 m1 n2 m2 s H1 H2 R1 R2. simpl in H1, H2.
  split_elem_of; reflexivity.
Qed.

Lemma scenario_methods_unshared :
  unsharedMethods Scenario.theIndex (PROPERTY_CALL_MACROS Scenario.tables).
Proof.
  intros c1 ms1 m1 p1 c2 ms2 m2 p2 s H1 M1 H2 M2 R1 R2. simpl in H1, H2.
  split_elem_of. split_elem_of. split; reflexivity.
Qed.

Lemma scenario_keyedOnce :
  keyedOnce (IDENTIFIER_MACROS Scenario.tables) /\
  keyedOnce (CALL_MACROS Scenario.tables) /\
  keyedOnce (CONSTRUCTOR_MACROS Scenario.tables) /\
  keyedOnceNested (PROPERTY_CALL_MACROS Scenario.tables).
Proof.
  unfold keyedOnceNested, keyedOnce. simpl.
  repeat split; try (repeat constructor; simpl); compute_done.
Qed.

(** The overloads of [typeIs], the merged [Array] and the merged
    [Vector3Constructor] of the scenario. *)
Lemma identifier_and_call_symbols_bound_witness :
  getIdentifierMacro Scenario.theManager 1%positive = Some "scriptMacro" /\
  getIdentifierMacro Scenario.theManager 18%positive = Some "gameMacro" /\
  getCallMacro Scenario.theManager 4%positive = Some "typeIsMacro" /\
  getCallMacro Scenario.theManager 5%positive = Some "typeIsMacro".
Proof.
  destruct scenario_keyedOnce as (K1 & K2 & _ & _).
  destruct (identifier_and_call_symbols_bound
              Scenario.host Scenario.tables Scenario.program
              Scenario.typeChecker Scenario.nodeModulesPath
              Scenario.theManager Scenario.theIndex
              scenario_manager_eq scenario_index_eq K1 K2
              scenario_identifiers_unshared scenario_functions_unshared)
    as (Hid & _ & Hover).
  split; [|split].
  - apply (Hid "script"); [in_list | is_recorded].
  - apply (Hid "game"); [in_list | is_recorded].
  - apply (Hover "typeIs" "typeIsMacro" 10 3%positive 20 3%positive); in_list.
Defined.

Lemma constructor_symbols_bound_witness :
  getConstructorMacro Scenario.theManager 13%positive = Some "vectorMacro" /\
  getConstructorMacro Scenario.theManager 15%positive = Some "vectorMacro".
Proof.
  destruct scenario_keyedOnce as (_ & _ & K3 & _).
  destruct (constructor_symbols_bound
              Scenario.host Scenario.tables Scenario.program
              Scenario.typeChecker Scenario.nodeModulesPath
              Scenario.theManager Scenario.theIndex
              scenario_manager_eq scenario_index_eq K3
              scenario_constructors_unshared)
    as (Hidx & Hdecl).
  split.
  - apply (Hidx "Vector3Constructor"); [in_list | is_recorded].
  - apply (Hdecl "Vector3Constructor" "vectorMacro" 80 12%positive
             [ConstructSignatureDeclaration 81 15%positive] 81); in_list.
Defined.

Lemma method_symbols_bound_witness :
  getPropertyCallMacro Scenario.theManager 8%positive = Some "P1" /\
  getPropertyCallMacro Scenario.theManager 16%positive = Some "P1".
Proof.
  destruct scenario_keyedOnce as (_ & _ & _ & K4).
  destruct (method_symbols_bound
              Scenario.host Scenario.tables Scenario.program
              Scenario.typeChecker Scenario.nodeModulesPath
              Scenario.theManager Scenario.theIndex
              scenario_manager_eq scenario_index_eq K4
              scenario_methods_unshared)
    as (_ & Hdecl).
  split.
  - apply (Hdecl "Array" [("push", "P1")] "push" "P1" 30 6%positive
             [MethodSignature 31 (PN_Identifier "push") 7%positive]
             31 7%positive); in_list.
  - apply (Hdecl "Array" [("push", "P1")] "push" "P1" 70 6%positive
             [MethodSignature 71 (PN_Identifier "pop") 9%positive;
              MethodSignature 72 (PN_Identifier "push") 7%positive;
              MethodSignature 73 (PN_StringLiteral "quoted") 11%positive;
              OtherTypeElement 74]
             72 7%positive); in_list.
Defined.

(** [interface Array<T> { push(v: T): void }] merged with a later
    [interface Array<T> { pop(): T }], and the table
    [{ Array: { push: P1 } }]: the [push] symbols carry [P1], the [pop]
    symbol carries no macro. *)
Lemma other_methods_stay_unbound_witness :
  getPropertyCallMacro Scenario.theManager 8%positive = Some "P1" /\
  getPropertyCallMacro Scenario.theManager 16%positive = Some "P1" /\
  recordedUnder (methodSymbols Scenario.theIndex "Array") "pop" 10%positive /\
  getPropertyCallMacro Scenario.theManager 10%positive = None.
Proof.
  pose proof (other_methods_stay_unbound
                Scenario.host Scenario.tables Scenario.program
                Scenario.typeChecker Scenario.nodeModulesPath
                Scenario.theManager Scenario.theIndex "Array" "push" "P1"
                eq_refl scenario_manager_eq scenario_index_eq) as Hframe.
  split; [|split; [|split]].
  - apply (Hframe 8%positive). is_recorded.
  - apply (Hframe 16%positive). is_recorded.
  - is_recorded.
  - apply (Hframe 10%positive). intros R. read_recorded. split_elem_of;
      discriminate.
Defined.


(** With [alpha] and [omega] both absent the message is the one for
    [alpha], the first miss; [omega] is not in it. *)
Lemma second_absent_identifier_not_named : ~ every_absent_identifier_named.
Proof.
  intros Hclaim.
  destruct (Hclaim string string string string
              Scenario.host Drift.tables Scenario.program Scenario.typeChecker
              Scenario.nodeModulesPath Scenario.theIndex scenario_index_eq
              "omega" "B")
    as (message & Hrun & Hnamed).
  - in_list.
  - vm_compute. reflexivity.
  - vm_compute in Hrun. injection Hrun as <-.
    vm_compute in Hnamed. discriminate.
Qed.

Lemma unbound_target_first_miss_witness :
  MacroManager_new Scenario.host Drift.tables Scenario.program
    Scenario.typeChecker Scenario.nodeModulesPath
  = Throw (ProjectError "(MacroManager) No identifier found for alpha").
Proof.
  destruct (unbound_target_first_miss
              Scenario.host Drift.tables Scenario.program Scenario.typeChecker
              Scenario.nodeModulesPath Scenario.theIndex scenario_index_eq)
    as (_ & Hfirst & _).
  apply (Hfirst [("script", "scriptMacro")] "alpha" "A" [("omega", "B")]).
  - reflexivity.
  - repeat constructor. simpl. vm_compute. eauto.
  - vm_compute. reflexivity.
Defined.

(** * Further properties of the source *)

(** ** The Name Index is what the files declare *)

Lemma entryOf_snoc {A} (l : list A) (x : A) : entryOf (l ++ [x]) = Some (l ++ [x]).
Proof. destruct l; reflexivity. Qed.

Lemma default_entryOf {A} (l : list A) : default [] (entryOf l) = l.
Proof. destruct l; reflexivity. Qed.

Lemma entryOf_None {A} (l : list A) : entryOf l = None <-> l = [].
Proof. destruct l; split; intros H; try reflexivity; discriminate. Qed.

Lemma entryOf_Some {A} (l l' : list A) : entryOf l = Some l' -> l' = l /\ l <> [].
Proof. destruct l; intros [= <-]. split; [reflexivity | discriminate]. Qed.

Lemma pushSymbol_listsAre (map : gmap string (list Symbol))
    (f : string -> list Symbol) (key : string) (symbol : Symbol) :
  listsAre map f ->
  listsAre (pushSymbol map key symbol)
    (fun name => f name ++ if String.eqb key name then [symbol] else []).
Proof.
  intros Hmap name. rewrite pushSymbol_insert.
  destruct (String.eqb_spec key name) as [->|Hne].
  - now rewrite lookup_insert_eq, Hmap, default_entryOf, entryOf_snoc.
  - rewrite lookup_insert_ne by exact Hne. rewrite app_nil_r. apply Hmap.
Qed.

Lemma scanVariableDeclarations_listsAre
    (declarations : list VariableDeclaration) :
  forall (map : gmap string (list Symbol)) (f : string -> list Symbol),
    listsAre map f ->
    listsAre (fold_left scanVariableDeclaration declarations map)
      (fun name =>
         f name ++ List.map vd_symbol (List.filter (declaredAs name) declarations)).
Proof.
  induction declarations as [|d declarations IH]; intros map f Hmap name.
  - simpl. rewrite app_nil_r. apply Hmap.
  - cbn [fold_left].
    assert (listsAre (scanVariableDeclaration map d)
              (fun name =>
                 f name ++ List.map vd_symbol (List.filter (declaredAs name) [d])))
      as Hstep.
    { intros n. unfold scanVariableDeclaration, declaredAs.
      destruct d as [[text| |] sym]; simpl;
        try (rewrite app_nil_r; apply Hmap).
      rewrite (pushSymbol_listsAre _ _ text sym Hmap n).
      now destruct (String.eqb text n). }
    rewrite (IH _ _ Hstep name). f_equal. rewrite <- app_assoc. f_equal.
    simpl. now destruct (declaredAs name d).
Qed.

Section IndexExact.

Variable typeChecker : TypeChecker.

Lemma scanMember_fields (info : InterfaceInfo) (member : TypeElement)
    (g : string -> list Symbol) :
  listsAre (methods info) g ->
  symbols (scanMember typeChecker info member) = symbols info /\
  constructors (scanMember typeChecker info member)
    = constructors info ++ constructSignatureSymbols member /\
  listsAre (methods (scanMember typeChecker info member))
    (fun m => g m ++ methodTypeSymbols typeChecker m member).
Proof.
  intros Hg.
  assert (listsAre (methods info) (fun m => g m ++ [])) as Hsame
    by (intros m; rewrite app_nil_r; apply Hg).
  destruct member as [pos [text|text|text|] sym|pos sym|pos]; simpl;
    rewrite ?app_nil_r; auto.
  repeat split.
  intros m.
  pose proof (pushSymbol_listsAre _ _ text
                (typeSymbolOf typeChecker
                   (TypeElementNode (MethodSignature pos (PN_Identifier text) sym)))
                Hg m) as Hpush.
  rewrite pushSymbol_insert in Hpush. exact Hpush.
Qed.

Lemma scanMembers_fields (members : list TypeElement) :
  forall (info : InterfaceInfo) (g : string -> list Symbol),
    listsAre (methods info) g ->
    symbols (fold_left (scanMember typeChecker) members info) = symbols info /\
    constructors (fold_left (scanMember typeChecker) members info)
      = constructors info ++ flat_map constructSignatureSymbols members /\
    listsAre (methods (fold_left (scanMember typeChecker) members info))
      (fun m => g m ++ flat_map (methodTypeSymbols typeChecker m) members).
Proof.
  induction members as [|member members IH]; intros info g Hg.
  - simpl. rewrite app_nil_r. repeat split.
    intros m. rewrite app_nil_r. apply Hg.
  - cbn [fold_left flat_map].
    destruct (scanMember_fields info member g Hg) as (HS & HC & HM).
    destruct (IH _ _ HM) as (HS' & HC' & HM').
    rewrite HS', HC', HS, HC. rewrite <- app_assoc. repeat split.
    intros m. rewrite (HM' m). now rewrite <- app_assoc.
Qed.

Lemma scanInterface_interfacesAre (interfaces : gmap string InterfaceInfo)
    (fS fC : string -> list Symbol) (fM : string -> string -> list Symbol)
    (statement : Statement) (name : string) (members : list TypeElement) :
  interfacesAre interfaces fS fC fM ->
  interfacesAre
    (scanInterface typeChecker interfaces statement name members)
    (fun c =>
       fS c ++ if String.eqb name c
               then [typeSymbolOf typeChecker (StatementNode statement)]
               else [])
    (fun c =>
       fC c ++ if String.eqb name c
               then flat_map constructSignatureSymbols members
               else [])
    (fun c m =>
       fM c m ++ if String.eqb name c
                 then flat_map (methodTypeSymbols typeChecker m) members
                 else []).
Proof.
  intros Hall c. rewrite scanInterface_insert. specialize (Hall c).
  destruct (String.eqb_spec name c) as [->|Hne].
  - rewrite lookup_insert_eq. unfold scannedInfo.
    destruct (interfaces !! c) as [old|]; simpl.
    + destruct Hall as (Hne & HS & HC & HM).
      destruct (scanMembers_fields members
                  {| symbols :=
                       symbols old ++
                       [typeSymbolOf typeChecker (StatementNode statement)];
                     constructors := constructors old;
                     methods := methods old |} (fM c) HM)
        as (HS' & HC' & HM').
      simpl in *. rewrite HS', HC'.
      split; [intros Habs; now apply app_eq_nil in Habs as [_ ?]|].
      split; [now rewrite HS|]. split; [now rewrite HC | exact HM'].
    + destruct Hall as (HS & HC & HM).
      assert (listsAre (∅ : gmap string (list Symbol)) (fM c)) as Hempty
        by (intros m; now rewrite lookup_empty, HM).
      destruct (scanMembers_fields members
                  {| symbols :=
                       [] ++ [typeSymbolOf typeChecker (StatementNode statement)];
                     constructors := [];
                     methods := ∅ |} (fM c) Hempty)
        as (HS' & HC' & HM').
      simpl in *. rewrite HS', HC'.
      split; [now rewrite HS|].
      split; [now rewrite HS|]. split; [now rewrite HC | exact HM'].
  - rewrite lookup_insert_ne by exact Hne.
    destruct (interfaces !! c) as [info|]; rewrite !app_nil_r.
    + destruct Hall as (Hne' & HS & HC & HM). repeat split; auto.
      intros m. rewrite app_nil_r. apply HM.
    + destruct Hall as (HS & HC & HM). repeat split; auto.
      intros m. rewrite app_nil_r. apply HM.
Qed.

Lemma scanStatement_indexOf (done : list Statement) (index index' : NameIndex)
    (statement : Statement) :
  indexOf typeChecker done index ->
  scanStatement typeChecker index statement = Normal index' ->
  indexOf typeChecker (done ++ [statement]) index'.
Proof.
  intros (Hid & Hfn & Hif) Hstep.
  assert (forall (f : Statement -> list Symbol),
             f statement = [] ->
             flat_map f (done ++ [statement]) = flat_map f done) as Hskip.
  { intros f Hf. rewrite flat_map_app. simpl. now rewrite Hf, !app_nil_r. }
  assert (forall (f : Statement -> list Symbol),
             flat_map f (done ++ [statement]) = flat_map f done ++ f statement)
    as Hadd.
  { intros f. rewrite flat_map_app. simpl. now rewrite app_nil_r. }
  assert (forall (fS fC : string -> list Symbol) fM,
             (forall c, fS c = flat_map (interfaceTypeSymbols typeChecker c) done) ->
             (forall c, fC c = flat_map (interfaceConstructorSymbols c) done) ->
             (forall c m,
                 fM c m = flat_map (interfaceMethodSymbols typeChecker c m) done) ->
             interfacesAre (interfaces index) fS fC fM) as Hif'.
  { intros fS fC fM HS HC HM c. specialize (Hif c).
    destruct (interfaces index !! c) as [info|].
    - rewrite HS, HC. destruct Hif as (? & ? & ? & Hm). repeat split; auto.
      intros m. rewrite HM. apply Hm.
    - rewrite HS, HC. destruct Hif as (? & ? & Hm). repeat split; auto.
      intros m. rewrite HM. apply Hm. }
  destruct statement as [pos decls|pos [text|] sym|pos name sym members|pos];
    simpl in Hstep; try discriminate; injection Hstep as <-;
    (split; [|split]); simpl.
  - intros n. rewrite Hadd. simpl.
    apply (scanVariableDeclarations_listsAre decls _ _ Hid n).
  - intros n. rewrite Hskip by reflexivity. apply Hfn.
  - apply Hif'; intros; now rewrite Hskip.
  - intros n. rewrite Hskip by reflexivity. apply Hid.
  - intros n. rewrite Hadd. simpl.
    apply (pushSymbol_listsAre _ _ text _ Hfn n).
  - apply Hif'; intros; now rewrite Hskip.
  - intros n. rewrite Hskip by reflexivity. apply Hid.
  - intros n. rewrite Hskip by reflexivity. apply Hfn.
  - intros c.
    pose proof (scanInterface_interfacesAre _ _ _ _
                  (InterfaceDeclaration pos name sym members) name members Hif c)
      as Hnew.
    destruct (scanInterface typeChecker (interfaces index)
                (InterfaceDeclaration pos name sym members) name members !! c)
      as [info|].
    + rewrite !Hadd.
      unfold interfaceTypeSymbols, interfaceConstructorSymbols. simpl.
      destruct Hnew as (? & ? & ? & Hm). repeat split; auto.
      intros m. rewrite Hadd. unfold interfaceMethodSymbols. simpl. apply Hm.
    + rewrite !Hadd.
      unfold interfaceTypeSymbols, interfaceConstructorSymbols. simpl.
      destruct Hnew as (? & ? & Hm). repeat split; auto.
      intros m. rewrite Hadd. unfold interfaceMethodSymbols. simpl. apply Hm.
  - intros n. rewrite Hskip by reflexivity. apply Hid.
  - intros n. rewrite Hskip by reflexivity. apply Hfn.
  - apply Hif'; intros; now rewrite Hskip.
Qed.

Lemma scanStatements_indexOf (stmts : list Statement) :
  forall (done : list Statement) (index index' : NameIndex),
    indexOf typeChecker done index ->
    scanStatements typeChecker stmts index = Normal index' ->
    indexOf typeChecker (done ++ stmts) index'.
Proof.
  induction stmts as [|statement stmts IH]; intros done index index' Hdone Hrun.
  - injection Hrun as <-. now rewrite app_nil_r.
  - unfold scanStatements in Hrun. simpl in Hrun.
    destruct (scanStatement typeChecker index statement) as [mid|] eqn:Hstep;
      [|discriminate].
    simpl in Hrun.
    replace (done ++ statement :: stmts) with ((done ++ [statement]) ++ stmts)
      by (now rewrite <- app_assoc).
    apply (IH _ mid); [|exact Hrun].
    now apply scanStatement_indexOf with index.
Qed.

Lemma emptyIndex_indexOf : indexOf typeChecker [] emptyIndex.
Proof.
  split; [|split]; intros n; simpl; try apply lookup_empty.
  rewrite lookup_empty. auto.
Qed.

(** The index a completed scan yields holds exactly what the scanned
    statements declare. *)
Lemma scanDeclarations_indexOf (host : Host) (program : Program)
    (nodeModulesPath : string) (index : NameIndex) :
  scanDeclarations host program typeChecker nodeModulesPath = Normal index ->
  indexOf typeChecker (scannedStatements host program nodeModulesPath) index.
Proof.
  intros Hscan. apply scanDeclarations_statements in Hscan.
  exact (scanStatements_indexOf _ [] _ _ emptyIndex_indexOf Hscan).
Qed.

End IndexExact.

(** X1. After a completed scan the identifier index maps a name to the
    declaration symbols of the top-level variable bindings of that simple
    name, in file and source order with repeats kept; a name without such
    a binding is not a key. *)
Theorem identifier_index_lists_declarations (host : Host) (program : Program)
    (typeChecker : TypeChecker) (nodeModulesPath : string) (index : NameIndex) :
  scanDeclarations host program typeChecker nodeModulesPath = Normal index ->
  forall name,
    identifierSymbols index name
    = entryOf (flat_map (variableSymbols name)
                 (scannedStatements host program nodeModulesPath)).
Proof.
  intros Hscan name.
  destruct (scanDeclarations_indexOf _ _ _ _ _ Hscan) as (Hid & _ & _).
  apply Hid.
Qed.

Lemma identifier_index_lists_declarations_witness :
  identifierSymbols Scenario.theIndex "game" = Some [18%positive] /\
  identifierSymbols Scenario.theIndex "typeIs" = None.
Proof.
  split.
  - exact (identifier_index_lists_declarations _ _ _ _ _ scenario_index_eq "game").
  - exact (identifier_index_lists_declarations _ _ _ _ _ scenario_index_eq "typeIs").
Defined.

(** X2. After a completed scan the function index maps a name to the type
    symbols of the function declarations of that name, one per declaration
    in file and source order, overloads included even when the checker
    gives them one symbol; a name without a declaration is not a key. *)
Theorem function_index_lists_declarations (host : Host) (program : Program)
    (typeChecker : TypeChecker) (nodeModulesPath : string) (index : NameIndex) :
  scanDeclarations host program typeChecker nodeModulesPath = Normal index ->
  forall name,
    functionSymbols index name
    = entryOf (flat_map (functionTypeSymbols typeChecker name)
                 (scannedStatements host program nodeModulesPath)).
Proof.
  intros Hscan name.
  destruct (scanDeclarations_indexOf _ _ _ _ _ Hscan) as (_ & Hfn & _).
  apply Hfn.
Qed.

Lemma function_index_lists_declarations_witness :
  functionSymbols Scenario.theIndex "typeIs" = Some [4%positive; 5%positive].
Proof.
  exact (function_index_lists_declarations _ _ _ _ _ scenario_index_eq "typeIs").
Defined.

Lemma interfaceTypeSymbols_nil (typeChecker : TypeChecker) (name : string)
    (stmts : list Statement) :
  flat_map (interfaceTypeSymbols typeChecker name) stmts = [] <->
  Forall (fun statement => declaresInterface name statement = false) stmts.
Proof.
  induction stmts as [|st stmts IH]; simpl.
  - split; [constructor | reflexivity].
  - unfold interfaceTypeSymbols at 1. rewrite Forall_cons.
    destruct (declaresInterface name st); simpl.
    + split; [discriminate | intros [? _]; discriminate].
    + rewrite IH. tauto.
Qed.

(** X3. After a completed scan an interface name is a key of the interface
    map exactly when some scanned statement declares an interface of that
    name; its entry then lists the type symbol of each such declaration and
    the declaration symbols of all their construct signatures, merged in
    file and source order. *)
Theorem interface_entry_merges_declarations (host : Host) (program : Program)
    (typeChecker : TypeChecker) (nodeModulesPath : string) (index : NameIndex) :
  scanDeclarations host program typeChecker nodeModulesPath = Normal index ->
  forall name,
    let stmts := scannedStatements host program nodeModulesPath in
    (interfaces index !! name = None <->
     Forall (fun statement => declaresInterface name statement = false) stmts) /\
    (forall info,
        interfaces index !! name = Some info ->
        symbols info = flat_map (interfaceTypeSymbols typeChecker name) stmts /\
        constructors info = flat_map (interfaceConstructorSymbols name) stmts).
Proof.
  intros Hscan name stmts.
  destruct (scanDeclarations_indexOf _ _ _ _ _ Hscan) as (_ & _ & Hif).
  specialize (Hif name). fold stmts in Hif.
  rewrite <- interfaceTypeSymbols_nil.
  destruct (interfaces index !! name) as [info|].
  - destruct Hif as (Hne & HS & HC & _). split.
    + split; [discriminate | intros Hnil; destruct (Hne Hnil)].
    + intros info' [= <-]. auto.
  - destruct Hif as (HS & _). split; [tauto | discriminate].
Qed.

Lemma interface_entry_merges_declarations_witness :
  constructorSymbols Scenario.theIndex "Vector3Constructor"
  = Some [13%positive; 14%positive; 15%positive] /\
  interfaces Scenario.theIndex !! "Map" = None.
Proof.
  destruct (interface_entry_merges_declarations _ _ _ _ _ scenario_index_eq
              "Vector3Constructor") as (_ & Hentry).
  destruct (interface_entry_merges_declarations _ _ _ _ _ scenario_index_eq
              "Map") as (Habsent & _).
  split.
  - unfold constructorSymbols.
    destruct (interfaces Scenario.theIndex !! "Vector3Constructor") as [info|]
      eqn:Hinfo; [|vm_compute in Hinfo; discriminate].
    simpl. f_equal. now destruct (Hentry info eq_refl) as (_ & ->).
  - apply Habsent. vm_compute. repeat constructor.
Defined.

(** X4. After a completed scan the method list of an interface name and a
    method name holds the type symbols of the method signatures of that
    simple name in the declarations of that interface name, overloads and
    merged declarations in file and source order; a pair without such a
    signature has no list. *)
Theorem method_index_lists_signatures (host : Host) (program : Program)
    (typeChecker : TypeChecker) (nodeModulesPath : string) (index : NameIndex) :
  scanDeclarations host program typeChecker nodeModulesPath = Normal index ->
  forall className methodName,
    methodSymbols index className methodName
    = entryOf (flat_map (interfaceMethodSymbols typeChecker className methodName)
                 (scannedStatements host program nodeModulesPath)).
Proof.
  intros Hscan className methodName.
  destruct (scanDeclarations_indexOf _ _ _ _ _ Hscan) as (_ & _ & Hif).
  specialize (Hif className). unfold methodSymbols, methodsOf.
  destruct (interfaces index !! className) as [info|].
  - destruct Hif as (_ & _ & _ & HM). apply HM.
  - destruct Hif as (_ & _ & HM). now rewrite HM.
Qed.

Lemma method_index_lists_signatures_witness :
  methodSymbols Scenario.theIndex "Array" "push"
  = Some [8%positive; 16%positive] /\
  methodSymbols Scenario.theIndex "Array" "quoted" = None.
Proof.
  split.
  - exact (method_index_lists_signatures _ _ _ _ _ scenario_index_eq
             "Array" "push").
  - exact (method_index_lists_signatures _ _ _ _ _ scenario_index_eq
             "Array" "quoted").
Defined.

(** ** The loop over the declaration files *)

Section FileLoop.

Variables (host : Host) (program : Program) (typeChecker : TypeChecker).
Variable nodeModulesPath : string.

Lemma scanFile_ready (index : NameIndex) (fileName : string) :
  fileReady host program nodeModulesPath fileName ->
  scanFile host program typeChecker nodeModulesPath index fileName
  = scanStatements typeChecker
      (statementsOf host program nodeModulesPath [fileName]) index.
Proof.
  intros [Hdisk [sf Hsf]]. unfold scanFile, statementsOf. simpl.
  fold (includePath host nodeModulesPath fileName).
  now rewrite Hdisk, Hsf, app_nil_r.
Qed.

(** With every file at hand the loop over the files is the loop over
    their statements, one file after the other. *)
Lemma scanFiles_ready (fileNames : list string) :
  Forall (fileReady host program nodeModulesPath) fileNames ->
  forall index,
    for_of (scanFile host program typeChecker nodeModulesPath) fileNames index
    = scanStatements typeChecker
        (statementsOf host program nodeModulesPath fileNames) index.
Proof.
  induction 1 as [|f fileNames Hf _ IH]; intros index; [reflexivity|].
  cbn [for_of]. rewrite (scanFile_ready _ _ Hf).
  assert (statementsOf host program nodeModulesPath (f :: fileNames)
          = statementsOf host program nodeModulesPath [f]
            ++ statementsOf host program nodeModulesPath fileNames) as ->
    by (unfold statementsOf; simpl; now rewrite app_nil_r).
  unfold scanStatements. rewrite for_of_app.
  destruct (for_of (scanStatement typeChecker) _ index) as [mid|e]; simpl;
    [apply IH | reflexivity].
Qed.

Lemma scanFiles_Normal_ready (fileNames : list string) :
  forall index index',
    for_of (scanFile host program typeChecker nodeModulesPath) fileNames index
    = Normal index' ->
    Forall (fileReady host program nodeModulesPath) fileNames.
Proof.
  induction fileNames as [|f fileNames IH]; intros index index' Hrun;
    [constructor|].
  cbn [for_of] in Hrun.
  destruct (scanFile host program typeChecker nodeModulesPath index f)
    as [mid|] eqn:Hf; [|discriminate].
  simpl in Hrun. constructor; [|now apply (IH mid index')].
  unfold scanFile in Hf. fold (includePath host nodeModulesPath f) in Hf.
  unfold fileReady.
  destruct (pathExistsSync host (includePath host nodeModulesPath f));
    [|discriminate].
  destruct (getSourceFileByPath program (includePath host nodeModulesPath f));
    [eauto | discriminate].
Qed.

(** What stops the loop over the files. *)
Lemma scanFiles_Throw (fileNames : list string) :
  forall index e,
    for_of (scanFile host program typeChecker nodeModulesPath) fileNames index
    = Throw e ->
    exists fileName,
      fileName ∈ fileNames /\
      let filePath := includePath host nodeModulesPath fileName in
      (pathExistsSync host filePath = false /\
       e = ProjectError (pathMissing filePath)) \/
      (pathExistsSync host filePath = true /\
       getSourceFileByPath program filePath = None /\
       e = ProjectError (sourceFileMissing filePath)) \/
      (exists sourceFile,
          getSourceFileByPath program filePath = Some sourceFile /\
          ~ allFunctionsNamed (statements sourceFile) /\ e = TypeError).
Proof.
  induction fileNames as [|f fileNames IH]; intros index e Hrun;
    [discriminate|].
  cbn [for_of] in Hrun.
  destruct (scanFile host program typeChecker nodeModulesPath index f)
    as [mid|e'] eqn:Hf; simpl in Hrun.
  - destruct (IH _ _ Hrun) as (g & Hg & Hwhy). exists g. split; [now right|].
    exact Hwhy.
  - injection Hrun as <-. exists f. split; [left|].
    unfold scanFile in Hf. fold (includePath host nodeModulesPath f) in Hf.
    cbn zeta.
    destruct (pathExistsSync host (includePath host nodeModulesPath f));
      simpl in Hf; [|injection Hf as <-; now left].
    destruct (getSourceFileByPath program (includePath host nodeModulesPath f))
      as [sf|]; [|injection Hf as <-; right; left; auto].
    right. right. exists sf.
    destruct (scanStatements_cases typeChecker (statements sf) index)
      as [[_ [i Hi]]|[Hnot Hthrow]]; [congruence|].
    rewrite Hthrow in Hf. injection Hf as <-. auto.
Qed.

End FileLoop.

Section FileErrors.

Context {IdentifierMacro CallMacro ConstructorMacro PropertyCallMacro : Type}.
Variables (host : Host) (program : Program) (typeChecker : TypeChecker).
Variable tables :
  MacroTables IdentifierMacro CallMacro ConstructorMacro PropertyCallMacro.
Variable nodeModulesPath : string.

(** X5. The first declaration file that is not at hand stops construction:
    when the files before it are on disk and parsed, with every function
    declaration named, a file absent from the disk raises the "Path does
    not exist" error with its joined path, and a file on disk that the
    program does not hold raises the "Could not find source file" error
    with that path; the macro tables are not consulted. *)
Theorem first_file_not_at_hand_stops_construction
    (pre post : list string) (fileName : string) :
  INCLUDE_FILES = pre ++ fileName :: post ->
  Forall (fileReady host program nodeModulesPath) pre ->
  allFunctionsNamed (statementsOf host program nodeModulesPath pre) ->
  let filePath := includePath host nodeModulesPath fileName in
  let construction :=
    MacroManager_new host tables program typeChecker nodeModulesPath in
  (pathExistsSync host filePath = false ->
   construction
   = Throw (ProjectError ("(MacroManager) Path does not exist " +:+ filePath))) /\
  (pathExistsSync host filePath = true ->
   getSourceFileByPath program filePath = None ->
   construction
   = Throw (ProjectError
              ("(MacroManager) Could not find source file for " +:+ filePath))).
Proof.
  intros Hfiles Hpre Hnamed filePath construction. subst construction.
  unfold MacroManager_new, scanDeclarations. rewrite Hfiles, for_of_app.
  rewrite (scanFiles_ready _ _ _ _ _ Hpre).
  destruct (scanStatements_cases typeChecker
              (statementsOf host program nodeModulesPath pre) emptyIndex)
    as [[_ [mid ->]]|[Hnot _]]; [|contradiction].
  cbn [andThen for_of]. unfold scanFile at 1 3.
  fold (includePath host nodeModulesPath fileName). fold filePath.
  split.
  - intros ->. reflexivity.
  - intros -> ->. reflexivity.
Qed.

End FileErrors.

Lemma first_file_not_at_hand_stops_construction_witness :
  MacroManager_new Missing.host Scenario.tables Scenario.program
    Scenario.typeChecker Scenario.nodeModulesPath
  = Throw (ProjectError
             "(MacroManager) Path does not exist node_modules/@rbxts/types/include/es.d.ts")
  /\
  MacroManager_new Scenario.host Scenario.tables Missing.program
    Scenario.typeChecker Scenario.nodeModulesPath
  = Throw (ProjectError
             "(MacroManager) Could not find source file for node_modules/@rbxts/types/include/macro_math.d.ts").
Proof.
  split.
  - refine (proj1 (first_file_not_at_hand_stops_construction
                     Missing.host Scenario.program Scenario.typeChecker
                     Scenario.tables Scenario.nodeModulesPath
                     ["roblox.d.ts"] ["macro_math.d.ts"] "es.d.ts"
                     eq_refl _ _) eq_refl).
    + repeat constructor. vm_compute. eauto.
    + vm_compute. repeat constructor.
  - refine (proj2 (first_file_not_at_hand_stops_construction
                     Scenario.host Missing.program Scenario.typeChecker
                     Scenario.tables Scenario.nodeModulesPath
                     ["roblox.d.ts"; "es.d.ts"] [] "macro_math.d.ts"
                     eq_refl _ _) eq_refl eq_refl).
    + repeat constructor; vm_compute; eauto.
    + vm_compute. repeat constructor.
Defined.

(** X6. The scan completes exactly when the three declaration files are
    all on disk and held by the program and every function declaration in
    them is named; with the files at hand it is the statement loop run over
    the statements of the three files in order. *)
Theorem scan_completes_iff_files_at_hand (host : Host) (program : Program)
    (typeChecker : TypeChecker) (nodeModulesPath : string) :
  ((exists index,
       scanDeclarations host program typeChecker nodeModulesPath = Normal index)
   <->
   Forall (fileReady host program nodeModulesPath) INCLUDE_FILES /\
   allFunctionsNamed (scannedStatements host program nodeModulesPath)) /\
  (Forall (fileReady host program nodeModulesPath) INCLUDE_FILES ->
   scanDeclarations host program typeChecker nodeModulesPath
   = scanStatements typeChecker
       (scannedStatements host program nodeModulesPath) emptyIndex).
Proof.
  split; [split|].
  - intros [index Hscan]. split.
    + exact (scanFiles_Normal_ready _ _ _ _ _ _ _ Hscan).
    + apply scanDeclarations_statements in Hscan.
      destruct (scanStatements_cases typeChecker
                  (scannedStatements host program nodeModulesPath) emptyIndex)
        as [[Hall _]|[_ Hthrow]]; [exact Hall | congruence].
  - intros [Hready Hnamed]. unfold scanDeclarations.
    rewrite (scanFiles_ready _ _ _ _ _ Hready).
    destruct (scanStatements_cases typeChecker
                (scannedStatements host program nodeModulesPath) emptyIndex)
      as [[_ Hrun]|[Hnot _]]; [exact Hrun | contradiction].
  - intros Hready. apply (scanFiles_ready _ _ _ _ _ Hready).
Qed.

(** ** When construction completes, and what stops it *)

Lemma bindPropertyCallMacros_Throw_why {M} (index : NameIndex)
    (classes : list (string * list (string * M))) :
  forall (table : gmap Symbol M) (e : Exception),
    bindPropertyCallMacros index classes table = Throw e ->
    (exists className methodMacros,
        (className, methodMacros) ∈ classes /\
        interfaces index !! className = None /\
        e = ProjectError (noInterface className)) \/
    (exists className methodMacros methodName macro,
        (className, methodMacros) ∈ classes /\
        (methodName, macro) ∈ methodMacros /\
        is_Some (interfaces index !! className) /\
        methodSymbols index className methodName = None /\
        e = ProjectError (noMethod className methodName)).
Proof.
  induction classes as [|[c ms] classes IH]; intros table e; [discriminate|].
  rewrite bindPropertyCallMacros_cons.
  destruct (interfaces index !! c) as [info|] eqn:Hinfo.
  - destruct (bindEntries (methodSymbols index c) (noMethod c) ms table)
      as [table1|e1] eqn:Hms; simpl.
    + intros Hrun.
      destruct (IH _ _ Hrun) as [(c' & ms' & Hin & Hrest)
                                |(c' & ms' & m & p & Hin & Hrest)].
      * left. exists c', ms'. split; [now right | exact Hrest].
      * right. exists c', ms', m, p. split; [now right | exact Hrest].
    + intros [= <-].
      apply bindEntries_Throw in Hms as (m & p & Hin & Hmiss & ->).
      right. exists c, ms, m, p. rewrite Hinfo.
      split; [left | eauto].
  - intros [= <-]. left. exists c, ms. split; [left | auto].
Qed.

Section Completion.

Context {IdentifierMacro CallMacro ConstructorMacro PropertyCallMacro : Type}.
Variables (host : Host) (program : Program) (typeChecker : TypeChecker).
Variable tables :
  MacroTables IdentifierMacro CallMacro ConstructorMacro PropertyCallMacro.
Variable nodeModulesPath : string.

(** X7. Construction yields a registry exactly when the scan completes and
    every name of the identifier, call and constructor tables, every
    interface of the property-call table and every method it names under
    that interface is present in the Name Index. *)
Theorem construction_completes_iff_targets_present :
  (exists this,
      MacroManager_new host tables program typeChecker nodeModulesPath
      = Normal this) <->
  (exists index,
      scanDeclarations host program typeChecker nodeModulesPath = Normal index /\
      hits (identifierSymbols index) (IDENTIFIER_MACROS tables) /\
      hits (functionSymbols index) (CALL_MACROS tables) /\
      hits (constructorSymbols index) (CONSTRUCTOR_MACROS tables) /\
      Forall (classHits index) (PROPERTY_CALL_MACROS tables)).
Proof.
  split.
  - intros [this Hnew]. unfold MacroManager_new in Hnew.
    destruct (scanDeclarations host program typeChecker nodeModulesPath)
      as [index|] eqn:Hscan; [|discriminate].
    simpl in Hnew. exists index. split; [reflexivity|].
    apply bindMacros_Normal in Hnew as (Hid & Hcall & Hctor & Hpcm).
    apply bindEntries_Normal_hits in Hid, Hcall, Hctor.
    apply bindPropertyCallMacros_Normal_hits in Hpcm. auto.
  - intros (index & Hscan & Hid & Hcall & Hctor & Hpcm).
    rewrite (MacroManager_new_scanned _ _ _ _ _ _ Hscan).
    unfold bindMacros, bindIdentifierMacros, bindCallMacros,
      bindConstructorMacros.
    destruct (bindEntries_total (identifierSymbols index) noIdentifier _ ∅ Hid)
      as [t1 H1].
    destruct (bindEntries_total (functionSymbols index) noFunction _ ∅ Hcall)
      as [t2 H2].
    destruct (bindEntries_total (constructorSymbols index) noInterface _ ∅ Hctor)
      as [t3 H3].
    destruct (bindPropertyCallMacros_total index _ ∅ Hpcm) as [t4 H4].
    unfold identifierSymbols in H1. unfold functionSymbols in H2.
    unfold constructorSymbols in H3. rewrite H1, H2, H3, H4. simpl. eauto.
Qed.

(** X8. Every exception of the constructor reports something the inputs
    lack: a [TypeError] comes from an unnamed function declaration in a
    parsed declaration file; a [ProjectError] carries the path of a
    declaration file absent from the disk or from the program, or, once
    the scan has completed, the name of a table entry absent from the Name
    Index. *)
Theorem construction_errors_are_real (e : Exception) :
  MacroManager_new host tables program typeChecker nodeModulesPath = Throw e ->
  ConstructionError host tables program typeChecker nodeModulesPath e.
Proof.
  unfold MacroManager_new. intros Hnew.
  destruct (scanDeclarations host program typeChecker nodeModulesPath)
    as [index|e'] eqn:Hscan; simpl in Hnew.
  - unfold bindMacros, bindIdentifierMacros, bindCallMacros,
      bindConstructorMacros in Hnew.
    destruct (bindEntries _ noIdentifier _ ∅) as [t1|e1] eqn:H1; simpl in Hnew.
    2:{ injection Hnew as <-.
        apply bindEntries_Throw in H1 as (n & m & Hin & Hmiss & ->).
        now apply (MissingIdentifier _ _ _ _ _ index n m). }
    destruct (bindEntries _ noFunction _ ∅) as [t2|e2] eqn:H2; simpl in Hnew.
    2:{ injection Hnew as <-.
        apply bindEntries_Throw in H2 as (n & m & Hin & Hmiss & ->).
        now apply (MissingFunction _ _ _ _ _ index n m). }
    destruct (bindEntries _ noInterface _ ∅) as [t3|e3] eqn:H3; simpl in Hnew.
    2:{ injection Hnew as <-.
        apply bindEntries_Throw in H3 as (n & m & Hin & Hmiss & ->).
        apply (MissingConstructorInterface _ _ _ _ _ index n m); auto.
        destruct (interfaces index !! n); [discriminate | reflexivity]. }
    destruct (bindPropertyCallMacros index _ ∅) as [t4|e4] eqn:H4;
      simpl in Hnew; [discriminate|].
    injection Hnew as <-.
    apply bindPropertyCallMacros_Throw_why in H4
      as [(c & ms & Hin & Hmiss & ->)|(c & ms & m & p & Hin & Hm & Hc & Hmiss & ->)].
    + now apply (MissingMethodInterface _ _ _ _ _ index c ms).
    + now apply (MissingMethod _ _ _ _ _ index c ms m p).
  - injection Hnew as <-.
    apply scanFiles_Throw in Hscan as (f & Hf & Hwhy). cbn zeta in Hwhy.
    destruct Hwhy as [[Hdisk ->]|[(Hdisk & Hsf & ->)|(sf & Hsf & Hnot & ->)]].
    + now apply MissingPath.
    + now apply MissingSourceFile.
    + now apply (UnnamedFunction _ _ _ _ _ f sf).
Qed.

End Completion.

Lemma construction_errors_are_real_witness :
  ConstructionError Scenario.host Drift.tables Scenario.program
    Scenario.typeChecker Scenario.nodeModulesPath
    (ProjectError "(MacroManager) No identifier found for alpha").
Proof.
  apply construction_errors_are_real. vm_compute. reflexivity.
Defined.

(** ** Which entry binds a symbol *)

Lemma bindEntries_app {M} (lookupName : string -> option (list Symbol))
    (notFound : string -> string) (pre post : list (string * M))
    (table : gmap Symbol M) :
  bindEntries lookupName notFound (pre ++ post) table
  = let* table' := bindEntries lookupName notFound pre table in
    bindEntries lookupName notFound post table'.
Proof. unfold bindEntries. apply for_of_app. Qed.

(** The last entry that reaches a symbol decides its macro. *)
Lemma bindEntries_last {M} (lookupName : string -> option (list Symbol))
    (notFound : string -> string) (pre post : list (string * M))
    (name : string) (macro : M) (table table' : gmap Symbol M) (s : Symbol) :
  bindEntries lookupName notFound (pre ++ (name, macro) :: post) table
    = Normal table' ->
  recordedUnder lookupName name s ->
  (forall name' macro',
      (name', macro') ∈ post -> ~ recordedUnder lookupName name' s) ->
  table' !! s = Some macro.
Proof.
  intros Hrun (symbols & Hname & Hs) Hpost.
  rewrite bindEntries_app in Hrun.
  destruct (bindEntries lookupName notFound pre table) as [table1|];
    [|discriminate].
  simpl in Hrun. rewrite bindEntries_cons, Hname in Hrun.
  apply (bindEntries_bound _ _ _ _ _ _ _ Hrun).
  - intros name' macro' Hin Hrec. destruct (Hpost _ _ Hin Hrec).
  - left. rewrite setAll_lookup. now rewrite decide_True.
Qed.

Lemma bindEntries_reached {M} (lookupName : string -> option (list Symbol))
    (notFound : string -> string) (entries : list (string * M)) (s : Symbol) :
  forall (table table' : gmap Symbol M),
    bindEntries lookupName notFound entries table = Normal table' ->
    is_Some (table !! s) \/
      (exists name macro, (name, macro) ∈ entries /\ recordedUnder lookupName name s) ->
    is_Some (table' !! s).
Proof.
  induction entries as [|[name macro] entries IH]; intros table table' Hrun Hreach.
  - injection Hrun as <-.
    destruct Hreach as [?|(n & m & Hin & _)]; [assumption|].
    now apply elem_of_nil in Hin.
  - rewrite bindEntries_cons in Hrun.
    destruct (lookupName name) as [symbols|] eqn:Hname; [|discriminate].
    apply (IH _ _ Hrun). rewrite setAll_lookup.
    destruct (decide (s ∈ symbols)) as [Hs|Hs]; [left; eauto|].
    destruct Hreach as [?|(n & m & Hin & Hrec)]; [now left|].
    apply elem_of_cons in Hin as [[= -> ->]|Hin].
    + destruct Hrec as (l & Hl & Hsl). congruence.
    + right. eauto.
Qed.

Lemma bindPropertyCallMacros_app {M} (index : NameIndex)
    (pre post : list (string * list (string * M))) (table : gmap Symbol M) :
  bindPropertyCallMacros index (pre ++ post) table
  = let* table' := bindPropertyCallMacros index pre table in
    bindPropertyCallMacros index post table'.
Proof. unfold bindPropertyCallMacros. apply for_of_app. Qed.

Lemma bindPropertyCallMacros_reached {M} (index : NameIndex)
    (classes : list (string * list (string * M))) (s : Symbol) :
  forall (table table' : gmap Symbol M),
    bindPropertyCallMacros index classes table = Normal table' ->
    is_Some (table !! s) \/
      (exists className methodMacros methodName macro,
          (className, methodMacros) ∈ classes /\
          (methodName, macro) ∈ methodMacros /\
          recordedUnder (methodSymbols index className) methodName s) ->
    is_Some (table' !! s).
Proof.
  induction classes as [|[c ms] classes IH]; intros table table' Hrun Hreach.
  - injection Hrun as <-.
    destruct Hreach as [?|(c & ms & m & p & Hin & _)]; [assumption|].
    now apply elem_of_nil in Hin.
  - rewrite bindPropertyCallMacros_cons in Hrun.
    destruct (interfaces index !! c) as [info|]; [|discriminate].
    destruct (bindEntries (methodSymbols index c) (noMethod c) ms table)
      as [table1|] eqn:Hms; [|discriminate].
    simpl in Hrun. apply (IH _ _ Hrun).
    destruct Hreach as [Hold|(c' & ms' & m & p & Hin & Hm & Hrec)].
    + left. apply (bindEntries_reached _ _ _ _ _ _ Hms). now left.
    + apply elem_of_cons in Hin as [[= -> ->]|Hin].
      * left. apply (bindEntries_reached _ _ _ _ _ _ Hms). right. eauto.
      * right. exists c', ms', m, p. auto.
Qed.

Section Binding.

Context {IdentifierMacro CallMacro ConstructorMacro PropertyCallMacro : Type}.
Variables (host : Host) (program : Program) (typeChecker : TypeChecker).
Variable tables :
  MacroTables IdentifierMacro CallMacro ConstructorMacro PropertyCallMacro.
Variable nodeModulesPath : string.

(** X9. When a symbol is recorded under several names of the identifier,
    call or constructor table, the registry maps it to the macro of the
    last such entry in table order: an entry binds a symbol of its name
    whenever no later entry of the table reaches that symbol. *)
Theorem last_entry_binds_symbol
    (this : MacroManager IdentifierMacro CallMacro ConstructorMacro
              PropertyCallMacro)
    (index : NameIndex) :
  MacroManager_new host tables program typeChecker nodeModulesPath
    = Normal this ->
  scanDeclarations host program typeChecker nodeModulesPath = Normal index ->
  (forall pre name macro post s,
      IDENTIFIER_MACROS tables = pre ++ (name, macro) :: post ->
      recordedUnder (identifierSymbols index) name s ->
      (forall name' macro',
          (name', macro') ∈ post ->
          ~ recordedUnder (identifierSymbols index) name' s) ->
      getIdentifierMacro this s = Some macro) /\
  (forall pre name macro post s,
      CALL_MACROS tables = pre ++ (name, macro) :: post ->
      recordedUnder (functionSymbols index) name s ->
      (forall name' macro',
          (name', macro') ∈ post ->
          ~ recordedUnder (functionSymbols index) name' s) ->
      getCallMacro this s = Some macro) /\
  (forall pre name macro post s,
      CONSTRUCTOR_MACROS tables = pre ++ (name, macro) :: post ->
      recordedUnder (constructorSymbols index) name s ->
      (forall name' macro',
          (name', macro') ∈ post ->
          ~ recordedUnder (constructorSymbols index) name' s) ->
      getConstructorMacro this s = Some macro).
Proof.
  intros Hnew Hscan.
  rewrite (MacroManager_new_scanned _ _ _ _ _ _ Hscan) in Hnew.
  apply bindMacros_Normal in Hnew as (Hid & Hcall & Hctor & _).
  split; [|split]; intros pre name macro post s Htable Hrec Hpost.
  - rewrite Htable in Hid.
    exact (bindEntries_last _ _ _ _ _ _ _ _ _ Hid Hrec Hpost).
  - rewrite Htable in Hcall.
    exact (bindEntries_last _ _ _ _ _ _ _ _ _ Hcall Hrec Hpost).
  - rewrite Htable in Hctor.
    exact (bindEntries_last _ _ _ _ _ _ _ _ _ Hctor Hrec Hpost).
Qed.

(** X10. The same for the property-call table, whose entries are taken
    interface by interface and, within an interface, method by method: a
    method entry binds a symbol of its method list whenever no later method
    of the same entry and no method of a later interface entry reaches that
    symbol. *)
Theorem last_method_entry_binds_symbol
    (this : MacroManager IdentifierMacro CallMacro ConstructorMacro
              PropertyCallMacro)
    (index : NameIndex)
    (pre post : list (string * list (string * PropertyCallMacro)))
    (className : string) (mpre mpost : list (string * PropertyCallMacro))
    (methodName : string) (macro : PropertyCallMacro) (s : Symbol) :
  MacroManager_new host tables program typeChecker nodeModulesPath
    = Normal this ->
  scanDeclarations host program typeChecker nodeModulesPath = Normal index ->
  PROPERTY_CALL_MACROS tables
  = pre ++ (className, mpre ++ (methodName, macro) :: mpost) :: post ->
  recordedUnder (methodSymbols index className) methodName s ->
  (forall methodName' macro',
      (methodName', macro') ∈ mpost ->
      ~ recordedUnder (methodSymbols index className) methodName' s) ->
  (forall className' methodMacros' methodName' macro',
      (className', methodMacros') ∈ post ->
      (methodName', macro') ∈ methodMacros' ->
      ~ recordedUnder (methodSymbols index className') methodName' s) ->
  getPropertyCallMacro this s = Some macro.
Proof.
  intros Hnew Hscan Htable Hrec Hmpost Hpost.
  rewrite (MacroManager_new_scanned _ _ _ _ _ _ Hscan) in Hnew.
  apply bindMacros_Normal in Hnew as (_ & _ & _ & Hpcm).
  rewrite Htable, bindPropertyCallMacros_app in Hpcm.
  destruct (bindPropertyCallMacros index pre ∅) as [table1|]; [|discriminate].
  simpl in Hpcm. rewrite bindPropertyCallMacros_cons in Hpcm.
  destruct (interfaces index !! className) as [info|]; [|discriminate].
  destruct (bindEntries (methodSymbols index className) (noMethod className)
              (mpre ++ (methodName, macro) :: mpost) table1)
    as [table2|] eqn:Hms; [|discriminate].
  simpl in Hpcm.
  apply (bindPropertyCallMacros_bound _ _ _ _ _ _ Hpcm).
  - intros c' ms' m' p' Hc Hm Hrec'. destruct (Hpost _ _ _ _ Hc Hm Hrec').
  - left. exact (bindEntries_last _ _ _ _ _ _ _ _ _ Hms Hrec Hmpost).
Qed.

(** X11. After construction a symbol has an identifier macro exactly when
    the scanner recorded it under some name of the identifier table, and
    likewise for the call, constructor and property-call macros; no
    condition on the tables or on the symbols is needed. *)
Theorem symbol_bound_iff_recorded
    (this : MacroManager IdentifierMacro CallMacro ConstructorMacro
              PropertyCallMacro)
    (index : NameIndex) :
  MacroManager_new host tables program typeChecker nodeModulesPath
    = Normal this ->
  scanDeclarations host program typeChecker nodeModulesPath = Normal index ->
  forall s,
    (is_Some (getIdentifierMacro this s) <->
     exists name macro,
       (name, macro) ∈ IDENTIFIER_MACROS tables /\
       recordedUnder (identifierSymbols index) name s) /\
    (is_Some (getCallMacro this s) <->
     exists name macro,
       (name, macro) ∈ CALL_MACROS tables /\
       recordedUnder (functionSymbols index) name s) /\
    (is_Some (getConstructorMacro this s) <->
     exists name macro,
       (name, macro) ∈ CONSTRUCTOR_MACROS tables /\
       recordedUnder (constructorSymbols index) name s) /\
    (is_Some (getPropertyCallMacro this s) <->
     exists className methodMacros methodName macro,
       (className, methodMacros) ∈ PROPERTY_CALL_MACROS tables /\
       (methodName, macro) ∈ methodMacros /\
       recordedUnder (methodSymbols index className) methodName s).
Proof.
  intros Hnew Hscan s.
  rewrite (MacroManager_new_scanned _ _ _ _ _ _ Hscan) in Hnew.
  apply bindMacros_Normal in Hnew as (Hid & Hcall & Hctor & Hpcm).
  split; [|split; [|split]]; split.
  - intros [m Hm]. destruct (bindEntries_origin _ _ _ _ _ _ _ Hid Hm)
      as [He|(n & Hin & Hrec)]; [now rewrite lookup_empty in He | eauto].
  - intros Hreach. apply (bindEntries_reached _ _ _ _ _ _ Hid). now right.
  - intros [m Hm]. destruct (bindEntries_origin _ _ _ _ _ _ _ Hcall Hm)
      as [He|(n & Hin & Hrec)]; [now rewrite lookup_empty in He | eauto].
  - intros Hreach. apply (bindEntries_reached _ _ _ _ _ _ Hcall). now right.
  - intros [m Hm]. destruct (bindEntries_origin _ _ _ _ _ _ _ Hctor Hm)
      as [He|(n & Hin & Hrec)]; [now rewrite lookup_empty in He | eauto].
  - intros Hreach. apply (bindEntries_reached _ _ _ _ _ _ Hctor). now right.
  - intros [m Hm]. destruct (bindPropertyCallMacros_origin _ _ _ _ _ _ Hpcm Hm)
      as [He|(c & ms & n & Hc & Hin & Hrec)];
      [now rewrite lookup_empty in He | eauto 10].
  - intros Hreach. apply (bindPropertyCallMacros_reached _ _ _ _ _ Hpcm).
    now right.
Qed.

End Binding.

Lemma aliased_index_eq :
  scanDeclarations Scenario.host Aliased.program Scenario.typeChecker
    Scenario.nodeModulesPath
  = Normal Aliased.theIndex.
Proof. vm_compute. reflexivity. Qed.

Lemma aliased_manager_eq :
  MacroManager_new Scenario.host Aliased.tables Aliased.program
    Scenario.typeChecker Scenario.nodeModulesPath
  = Normal Aliased.theManager.
Proof. vm_compute. reflexivity. Qed.

(** The symbol declared as both [a] and [b] carries the macro of [b]. *)
Lemma last_entry_binds_symbol_witness :
  recordedUnder (identifierSymbols Aliased.theIndex) "a" 1%positive /\
  getIdentifierMacro Aliased.theManager 1%positive = Some "B".
Proof.
  split; [is_recorded|].
  destruct (last_entry_binds_symbol
              Scenario.host Aliased.program Scenario.typeChecker Aliased.tables
              Scenario.nodeModulesPath Aliased.theManager Aliased.theIndex
              aliased_manager_eq aliased_index_eq)
    as (Hid & _).
  apply (Hid [("a", "A")] "b" "B" [("c", "C")]).
  - reflexivity.
  - is_recorded.
  - intros n m Hin R. split_elem_of. read_recorded. split_elem_of. discriminate.
Defined.

Lemma methods_index_eq :
  scanDeclarations Scenario.host Methods.program Methods.typeChecker
    Scenario.nodeModulesPath
  = Normal Methods.theIndex.
Proof. vm_compute. reflexivity. Qed.

Lemma methods_manager_eq :
  MacroManager_new Scenario.host Methods.tables Methods.program
    Methods.typeChecker Scenario.nodeModulesPath
  = Normal Methods.theManager.
Proof. vm_compute. reflexivity. Qed.

(** The symbol recorded for both [Map.get] and [Array.push] carries the
    macro of [push], the later entry: [shift] and [Set.add], which come
    after it, do not reach the symbol. *)
Lemma last_method_entry_binds_symbol_witness :
  recordedUnder (methodSymbols Methods.theIndex "Map") "get" 40%positive /\
  getPropertyCallMacro Methods.theManager 40%positive = Some "P1".
Proof.
  split; [is_recorded|].
  apply (last_method_entry_binds_symbol
           Scenario.host Methods.program Methods.typeChecker Methods.tables
           Scenario.nodeModulesPath Methods.theManager Methods.theIndex
           [("Map", [("get", "G")])] [("Set", [("add", "A")])]
           "Array" [("pop", "P0")] [("shift", "S")] "push" "P1" 40%positive
           methods_manager_eq methods_index_eq eq_refl).
  - is_recorded.
  - intros n m Hin R. split_elem_of. read_recorded. split_elem_of. discriminate.
  - intros c ms n m Hc Hin R. split_elem_of. split_elem_of.
    read_recorded. split_elem_of. discriminate.
Defined.

Lemma symbol_bound_iff_recorded_witness :
  is_Some (getCallMacro Scenario.theManager 5%positive) /\
  ~ is_Some (getConstructorMacro Scenario.theManager 12%positive).
Proof.
  destruct (symbol_bound_iff_recorded
              Scenario.host Scenario.program Scenario.typeChecker
              Scenario.tables Scenario.nodeModulesPath
              Scenario.theManager Scenario.theIndex
              scenario_manager_eq scenario_index_eq 5%positive)
    as (_ & Hcall & _).
  destruct (symbol_bound_iff_recorded
              Scenario.host Scenario.program Scenario.typeChecker
              Scenario.tables Scenario.nodeModulesPath
              Scenario.theManager Scenario.theIndex
              scenario_manager_eq scenario_index_eq 12%positive)
    as (_ & _ & Hctor & _).
  split.
  - apply Hcall. exists "typeIs", "typeIsMacro". split; [in_list | is_recorded].
  - intros Hsome. apply Hctor in Hsome as (n & m & Hin & R).
    simpl in Hin. split_elem_of. read_recorded. split_elem_of; discriminate.
Defined.

Section Extension.

Context {IdentifierMacro CallMacro ConstructorMacro PropertyCallMacro : Type}.
Variables (host : Host) (program : Program) (typeChecker : TypeChecker).
Variable tables :
  MacroTables IdentifierMacro CallMacro ConstructorMacro PropertyCallMacro.
Variable nodeModulesPath : string.

(** X12. Adding one entry at the end of the identifier table, for a name
    the identifier index holds, keeps construction successful, maps every
    symbol recorded under that name to the new macro, leaves the identifier
    macro of every other symbol as it was, and leaves the call, constructor
    and property-call macros untouched. *)
Theorem appended_identifier_entry_rebinds_its_symbols
    (this : MacroManager IdentifierMacro CallMacro ConstructorMacro
              PropertyCallMacro)
    (index : NameIndex) (name : string) (macro : IdentifierMacro)
    (recorded : list Symbol) :
  MacroManager_new host tables program typeChecker nodeModulesPath
    = Normal this ->
  scanDeclarations host program typeChecker nodeModulesPath = Normal index ->
  identifierSymbols index name = Some recorded ->
  exists this',
    MacroManager_new host
      {| IDENTIFIER_MACROS := IDENTIFIER_MACROS tables ++ [(name, macro)];
         CALL_MACROS := CALL_MACROS tables;
         CONSTRUCTOR_MACROS := CONSTRUCTOR_MACROS tables;
         PROPERTY_CALL_MACROS := PROPERTY_CALL_MACROS tables |}
      program typeChecker nodeModulesPath
    = Normal this' /\
    (forall s,
        getIdentifierMacro this' s
        = if decide (s ∈ recorded) then Some macro
          else getIdentifierMacro this s) /\
    (forall s, getCallMacro this' s = getCallMacro this s) /\
    (forall s, getConstructorMacro this' s = getConstructorMacro this s) /\
    (forall s, getPropertyCallMacro this' s = getPropertyCallMacro this s).
Proof.
  intros Hnew Hscan Hname.
  rewrite (MacroManager_new_scanned _ _ _ _ _ _ Hscan) in Hnew.
  apply bindMacros_Normal in Hnew as (Hid & Hcall & Hctor & Hpcm).
  rewrite (MacroManager_new_scanned _ _ _ _ _ _ Hscan).
  unfold bindMacros. cbn [IDENTIFIER_MACROS CALL_MACROS CONSTRUCTOR_MACROS
                            PROPERTY_CALL_MACROS].
  unfold bindIdentifierMacros in *. rewrite bindEntries_app, Hid.
  cbn [andThen]. rewrite bindEntries_cons.
  unfold identifierSymbols in Hname. rewrite Hname.
  cbn [bindEntries for_of andThen]. rewrite Hcall, Hctor, Hpcm.
  cbn [andThen]. eexists. split; [reflexivity|].
  unfold getIdentifierMacro, getCallMacro, getConstructorMacro,
    getPropertyCallMacro. cbn.
  repeat split. intros s. apply setAll_lookup.
Qed.

End Extension.

Lemma appended_identifier_entry_rebinds_its_symbols_witness :
  exists this',
    MacroManager_new Scenario.host
      {| IDENTIFIER_MACROS :=
           IDENTIFIER_MACROS Scenario.tables ++ [("script", "newMacro")];
         CALL_MACROS := CALL_MACROS Scenario.tables;
         CONSTRUCTOR_MACROS := CONSTRUCTOR_MACROS Scenario.tables;
         PROPERTY_CALL_MACROS := PROPERTY_CALL_MACROS Scenario.tables |}
      Scenario.program Scenario.typeChecker Scenario.nodeModulesPath
    = Normal this' /\
    getIdentifierMacro this' 1%positive = Some "newMacro" /\
    getIdentifierMacro this' 18%positive = Some "gameMacro".
Proof.
  destruct (appended_identifier_entry_rebinds_its_symbols
              Scenario.host Scenario.program Scenario.typeChecker
              Scenario.tables Scenario.nodeModulesPath
              Scenario.theManager Scenario.theIndex "script" "newMacro"
              [1%positive] scenario_manager_eq scenario_index_eq eq_refl)
    as (this' & Hnew & Hid & _).
  exists this'. split; [exact Hnew|]. split.
  - rewrite Hid. reflexivity.
  - rewrite Hid. reflexivity.
Defined.

(** ** The order of the declarations *)

Lemma setAll_same_symbols {M} (l1 l2 : list Symbol) (macro : M)
    (table : gmap Symbol M) :
  (forall s, s ∈ l1 <-> s ∈ l2) -> setAll l1 macro table = setAll l2 macro table.
Proof.
  intros Hsame. apply map_eq. intros s. rewrite !setAll_lookup.
  destruct (decide (s ∈ l1)) as [H1|H1], (decide (s ∈ l2)) as [H2|H2];
    try reflexivity; exfalso; apply Hsame in H1 || apply Hsame in H2;
    contradiction.
Qed.

Lemma bindEntries_same_symbols {M}
    (lookup1 lookup2 : string -> option (list Symbol))
    (notFound : string -> string) (entries : list (string * M)) :
  sameSymbols lookup1 lookup2 ->
  forall table,
    bindEntries lookup1 notFound entries table
    = bindEntries lookup2 notFound entries table.
Proof.
  intros Hsame. induction entries as [|[name macro] entries IH]; intros table;
    [reflexivity|].
  rewrite !bindEntries_cons. specialize (Hsame name).
  destruct (lookup1 name) as [l1|], (lookup2 name) as [l2|];
    try reflexivity; try contradiction.
  rewrite (setAll_same_symbols l1 l2 macro table Hsame). apply IH.
Qed.

Lemma bindPropertyCallMacros_same_symbols {M} (index1 index2 : NameIndex)
    (classes : list (string * list (string * M))) :
  (forall className,
      interfaces index1 !! className = None <->
      interfaces index2 !! className = None) ->
  (forall className,
      sameSymbols (methodSymbols index1 className)
        (methodSymbols index2 className)) ->
  forall table,
    bindPropertyCallMacros index1 classes table
    = bindPropertyCallMacros index2 classes table.
Proof.
  intros Hkeys Hsame. induction classes as [|[c ms] classes IH]; intros table;
    [reflexivity|].
  rewrite !bindPropertyCallMacros_cons.
  rewrite (bindEntries_same_symbols _ _ (noMethod c) ms (Hsame c)).
  specialize (Hkeys c).
  destruct (interfaces index1 !! c) as [i1|], (interfaces index2 !! c) as [i2|].
  - destruct (bindEntries _ _ ms table); simpl; [apply IH | reflexivity].
  - destruct Hkeys as [_ Hkeys]. now specialize (Hkeys eq_refl).
  - destruct Hkeys as [Hkeys _]. now specialize (Hkeys eq_refl).
  - reflexivity.
Qed.

Lemma entryOf_Permutation (l1 l2 : list Symbol) :
  l1 ≡ₚ l2 ->
  match entryOf l1, entryOf l2 with
  | Some a, Some b => forall s, s ∈ a <-> s ∈ b
  | None, None => True
  | _, _ => False
  end.
Proof.
  intros Hperm. destruct l1 as [|x l1], l2 as [|y l2]; simpl; trivial.
  - now apply Permutation_nil_l in Hperm.
  - now apply Permutation_nil_r in Hperm.
  - intros s. now rewrite Hperm.
Qed.

Lemma listsAre_Permutation (map1 map2 : gmap string (list Symbol))
    (f1 f2 : string -> list Symbol) :
  listsAre map1 f1 -> listsAre map2 f2 ->
  (forall name, f1 name ≡ₚ f2 name) ->
  sameSymbols (fun name => map1 !! name) (fun name => map2 !! name).
Proof.
  intros H1 H2 Hperm name. rewrite (H1 name), (H2 name).
  apply entryOf_Permutation, Hperm.
Qed.

(** Two indexes of permuted statement lists agree on every look-up the
    binding loops make. *)
Lemma indexOf_Permutation (typeChecker : TypeChecker)
    (stmts1 stmts2 : list Statement) (index1 index2 : NameIndex) :
  indexOf typeChecker stmts1 index1 -> indexOf typeChecker stmts2 index2 ->
  stmts1 ≡ₚ stmts2 ->
  sameSymbols (identifierSymbols index1) (identifierSymbols index2) /\
  sameSymbols (functionSymbols index1) (functionSymbols index2) /\
  sameSymbols (constructorSymbols index1) (constructorSymbols index2) /\
  (forall className,
      interfaces index1 !! className = None <->
      interfaces index2 !! className = None) /\
  (forall className,
      sameSymbols (methodSymbols index1 className)
        (methodSymbols index2 className)).
Proof.
  intros (Hid1 & Hfn1 & Hif1) (Hid2 & Hfn2 & Hif2) Hperm.
  assert (forall f : Statement -> list Symbol,
             flat_map f stmts1 ≡ₚ flat_map f stmts2) as Hflat
    by (intros f; now apply Permutation_flat_map).
  split; [|split; [|split; [|split]]].
  - apply (listsAre_Permutation _ _ _ _ Hid1 Hid2). intros n. apply Hflat.
  - apply (listsAre_Permutation _ _ _ _ Hfn1 Hfn2). intros n. apply Hflat.
  - intros c. specialize (Hif1 c). specialize (Hif2 c).
    pose proof (Hflat (interfaceTypeSymbols typeChecker c)) as HS.
    pose proof (Hflat (interfaceConstructorSymbols c)) as HC.
    unfold constructorSymbols.
    destruct (interfaces index1 !! c) as [i1|], (interfaces index2 !! c) as [i2|];
      simpl; trivial.
    + destruct Hif1 as (_ & _ & -> & _), Hif2 as (_ & _ & -> & _).
      intros s. now rewrite HC.
    + destruct Hif1 as (Hne & _), Hif2 as (Hnil & _).
      rewrite Hnil in HS. apply Permutation_nil_r in HS. congruence.
    + destruct Hif1 as (Hnil & _), Hif2 as (Hne & _).
      rewrite Hnil in HS. apply Permutation_nil_l in HS. congruence.
  - intros c. specialize (Hif1 c). specialize (Hif2 c).
    pose proof (Hflat (interfaceTypeSymbols typeChecker c)) as HS.
    destruct (interfaces index1 !! c) as [i1|], (interfaces index2 !! c) as [i2|];
      try tauto; try (split; discriminate).
    + destruct Hif1 as (Hne & _), Hif2 as (Hnil & _).
      rewrite Hnil in HS. apply Permutation_nil_r in HS. congruence.
    + destruct Hif1 as (Hnil & _), Hif2 as (Hne & _).
      rewrite Hnil in HS. apply Permutation_nil_l in HS. congruence.
  - intros c m. specialize (Hif1 c). specialize (Hif2 c).
    pose proof (Hflat (interfaceMethodSymbols typeChecker c m)) as HM.
    assert (forall index fS fC fM,
               match interfaces index !! c with
               | None => fS c = [] /\ fC c = [] /\ (forall m, fM c m = [])
               | Some info =>
                   fS c <> [] /\ symbols info = fS c /\
                   constructors info = fC c /\ listsAre (methods info) (fM c)
               end ->
               methodSymbols index c m = entryOf (fM c m)) as Hentry.
    { intros index fS fC fM Hif. unfold methodSymbols, methodsOf.
      destruct (interfaces index !! c) as [info|].
      - destruct Hif as (_ & _ & _ & Hm). apply Hm.
      - destruct Hif as (_ & _ & Hm). now rewrite Hm. }
    rewrite (Hentry _ _ _ _ Hif1), (Hentry _ _ _ _ Hif2).
    now apply entryOf_Permutation.
Qed.

Section Order.

Context {IdentifierMacro CallMacro ConstructorMacro PropertyCallMacro : Type}.
Variable tables :
  MacroTables IdentifierMacro CallMacro ConstructorMacro PropertyCallMacro.

Lemma bindMacros_same_symbols (index1 index2 : NameIndex) :
  sameSymbols (identifierSymbols index1) (identifierSymbols index2) ->
  sameSymbols (functionSymbols index1) (functionSymbols index2) ->
  sameSymbols (constructorSymbols index1) (constructorSymbols index2) ->
  (forall className,
      interfaces index1 !! className = None <->
      interfaces index2 !! className = None) ->
  (forall className,
      sameSymbols (methodSymbols index1 className)
        (methodSymbols index2 className)) ->
  bindMacros tables index1 = bindMacros tables index2.
Proof.
  intros Hid Hfn Hctor Hkeys Hm.
  unfold bindMacros, bindIdentifierMacros, bindCallMacros,
    bindConstructorMacros.
  rewrite (bindEntries_same_symbols _ _ noIdentifier _ Hid ∅).
  rewrite (bindEntries_same_symbols _ _ noFunction _ Hfn ∅).
  rewrite (bindEntries_same_symbols _ _ noInterface _ Hctor ∅).
  now rewrite (bindPropertyCallMacros_same_symbols _ _ _ Hkeys Hm ∅).
Qed.

(** X13. The outcome of construction depends on the declaration files only
    through the collection of their top-level statements: two programs
    whose scans complete and whose scanned statements are a permutation of
    one another give the same registry, or the same error. *)
Theorem construction_ignores_declaration_order (host : Host)
    (program1 program2 : Program) (typeChecker : TypeChecker)
    (nodeModulesPath : string) (index1 index2 : NameIndex) :
  scanDeclarations host program1 typeChecker nodeModulesPath = Normal index1 ->
  scanDeclarations host program2 typeChecker nodeModulesPath = Normal index2 ->
  scannedStatements host program1 nodeModulesPath
    ≡ₚ scannedStatements host program2 nodeModulesPath ->
  MacroManager_new host tables program1 typeChecker nodeModulesPath
  = MacroManager_new host tables program2 typeChecker nodeModulesPath.
Proof.
  intros Hscan1 Hscan2 Hperm.
  rewrite (MacroManager_new_scanned _ _ _ _ _ _ Hscan1).
  rewrite (MacroManager_new_scanned _ _ _ _ _ _ Hscan2).
  apply scanDeclarations_indexOf in Hscan1, Hscan2.
  destruct (indexOf_Permutation _ _ _ _ _ Hscan1 Hscan2 Hperm)
    as (Hid & Hfn & Hctor & Hkeys & Hm).
  now apply bindMacros_same_symbols.
Qed.

End Order.

Lemma swapped_index_eq :
  scanDeclarations Scenario.host Swapped.program Scenario.typeChecker
    Scenario.nodeModulesPath
  = Normal Swapped.theIndex.
Proof. vm_compute. reflexivity. Qed.

(** Exchanging the contents of [roblox.d.ts] and [es.d.ts] changes the
    order of the recorded symbols and not the registry. *)
Lemma construction_ignores_declaration_order_witness :
  methodSymbols Scenario.theIndex "Array" "push" = Some [8%positive; 16%positive] /\
  methodSymbols Swapped.theIndex "Array" "push" = Some [16%positive; 8%positive] /\
  MacroManager_new Scenario.host Scenario.tables Scenario.program
    Scenario.typeChecker Scenario.nodeModulesPath
  = MacroManager_new Scenario.host Scenario.tables Swapped.program
      Scenario.typeChecker Scenario.nodeModulesPath.
Proof.
  split; [reflexivity|]. split; [reflexivity|].
  apply (construction_ignores_declaration_order
           Scenario.tables Scenario.host Scenario.program Swapped.program
           Scenario.typeChecker Scenario.nodeModulesPath
           Scenario.theIndex Swapped.theIndex
           scenario_index_eq swapped_index_eq).
  change (scannedStatements Scenario.host Scenario.program
            Scenario.nodeModulesPath)
    with (statements Scenario.roblox ++ statements Scenario.es ++ []).
  change (scannedStatements Scenario.host Swapped.program
            Scenario.nodeModulesPath)
    with (statements Scenario.es ++ statements Scenario.roblox ++ []).
  rewrite !app_nil_r. apply Permutation_app_comm.
Defined.

(** ** The binder and the type symbols of the interfaces *)

Lemma sameSymbols_refl (lookup1 lookup2 : string -> option (list Symbol)) :
  (forall name, lookup1 name = lookup2 name) -> sameSymbols lookup1 lookup2.
Proof.
  intros Heq name. rewrite Heq. destruct (lookup2 name); [tauto | trivial].
Qed.

(** X14. The binding loops never read the type symbols recorded for the
    interfaces: with those arrays emptied in every interface entry, binding
    any macro tables gives the same registry, or the same error. *)
Theorem binding_ignores_interface_type_symbols
    {IdentifierMacro CallMacro ConstructorMacro PropertyCallMacro : Type}
    (tables :
       MacroTables IdentifierMacro CallMacro ConstructorMacro PropertyCallMacro)
    (index : NameIndex) :
  bindMacros tables (withoutTypeSymbols index) = bindMacros tables index.
Proof.
  apply bindMacros_same_symbols.
  - now apply sameSymbols_refl.
  - now apply sameSymbols_refl.
  - apply sameSymbols_refl. intros name.
    unfold constructorSymbols, withoutTypeSymbols. simpl.
    rewrite lookup_fmap. now destruct (interfaces index !! name).
  - intros c. unfold withoutTypeSymbols. simpl. rewrite lookup_fmap.
    destruct (interfaces index !! c); simpl; split; intros; congruence.
  - intros c. apply sameSymbols_refl. intros m.
    unfold methodSymbols, methodsOf, withoutTypeSymbols. simpl.
    rewrite lookup_fmap. now destruct (interfaces index !! c).
Qed.

(** ** [getOrDefault] *)

(** X15. [getOrDefault], whatever the value type: the key ends mapped to
    the value returned and every other key is as it was; a truthy stored
    value is returned with the map unchanged, while a missing key and a
    stored falsy value are both replaced by the default; a second call for
    the key returns the same value and changes nothing as soon as the value
    returned is truthy. On values that are never falsy, as the arrays and
    entries of the scanner, it is the look-up by key presence. *)
Theorem getOrDefault_stores_what_it_returns {V} (truthy : V -> bool)
    (map : gmap string V) (key : string)
    (getDefaultValue getOtherDefault : unit -> V) :
  let result := getOrDefaultOf truthy map key getDefaultValue in
  let fresh := (getDefaultValue tt, <[key := getDefaultValue tt]> map) in
  result.2 !! key = Some result.1 /\
  (forall other, other <> key -> result.2 !! other = map !! other) /\
  (forall value,
      map !! key = Some value ->
      result = if truthy value then (value, map) else fresh) /\
  (map !! key = None -> result = fresh) /\
  (truthy result.1 = true ->
   getOrDefaultOf truthy result.2 key getOtherDefault = result) /\
  getOrDefaultOf (fun _ => true) map key getDefaultValue
  = getOrDefault map key getDefaultValue.
Proof.
  unfold getOrDefaultOf, getOrDefault.
  destruct (map !! key) as [value|] eqn:Hkey; simpl.
  - destruct (truthy value) eqn:Htrue; simpl.
    + rewrite Hkey, Htrue. repeat split; auto; try discriminate.
      intros v [= <-]. now rewrite Htrue.
    + rewrite lookup_insert_eq. repeat split; auto; try discriminate.
      * intros other Hne. now rewrite lookup_insert_ne.
      * intros v [= <-]. now rewrite Htrue.
      * intros ->. reflexivity.
  - rewrite lookup_insert_eq. repeat split; auto; try discriminate.
    + intros other Hne. now rewrite lookup_insert_ne.
    + intros ->. reflexivity.
Qed.

(** A stored [0] is falsy: the default replaces it. *)
Lemma getOrDefault_stores_what_it_returns_witness :
  getOrDefaultOf (fun n => negb (Nat.eqb n 0)) {["k" := 0]} "k" (fun _ => 7)
  = (7, <["k" := 7]> {["k" := 0]}).
Proof.
  destruct (getOrDefault_stores_what_it_returns
              (fun n => negb (Nat.eqb n 0)) {["k" := 0]} "k"
              (fun _ => 7) (fun _ => 9))
    as (_ & _ & Hstored & _).
  exact (Hstored 0 (lookup_singleton_eq "k" 0)).
Defined.

(** ** More on [isCompilableFile] *)

Lemma append_suffix_inj (s1 : string) :
  forall s2 t1 t2,
    String.length t1 = String.length t2 ->
    s1 +:+ t1 = s2 +:+ t2 -> s1 = s2 /\ t1 = t2.
Proof.
  induction s1 as [|c s1 IH]; intros s2 t1 t2 Hlen Heq.
  - destruct s2 as [|c2 s2]; [now split|].
    exfalso. apply (f_equal String.length) in Heq.
    change (String.length t1 = S (String.length (s2 +:+ t2))) in Heq.
    rewrite StrFacts.length_append in Heq. lia.
  - destruct s2 as [|c2 s2].
    + exfalso. apply (f_equal String.length) in Heq.
      change (S (String.length (s1 +:+ t1)) = String.length t2) in Heq.
      rewrite StrFacts.length_append in Heq. lia.
    + change (String c (s1 +:+ t1) = String c2 (s2 +:+ t2)) in Heq.
      injection Heq as -> Heq.
      destruct (IH _ _ _ Hlen Heq) as [-> ->]. now split.
Qed.

Lemma split_suffix (p : string) :
  forall n, n <= String.length p ->
    exists p1 p2, p = p1 +:+ p2 /\ String.length p2 = n.
Proof.
  induction p as [|c p IH]; intros n Hn; simpl in Hn.
  - exists "", "". split; [reflexivity | simpl; lia].
  - destruct (Nat.eq_dec n (S (String.length p))) as [->|Hne].
    + exists "", (String c p). now split.
    + destruct (IH n) as (p1 & p2 & -> & Hlen); [lia|].
      exists (String c p1), p2. now split.
Qed.

Lemma endsWith_append_l (dir p t : string) :
  String.length t <= String.length p ->
  Str.endsWith (dir +:+ p) t = Str.endsWith p t.
Proof.
  intros Hlen.
  destruct (Str.endsWith p t) eqn:Hp.
  - apply StrFacts.endsWith_spec in Hp as [q ->].
    apply StrFacts.endsWith_spec. exists (dir +:+ q).
    now rewrite append_assoc.
  - apply StrFacts.endsWith_false. intros [q Heq].
    apply StrFacts.endsWith_false in Hp. apply Hp.
    destruct (split_suffix p _ Hlen) as (p1 & p2 & -> & Hp2).
    rewrite <- append_assoc in Heq.
    destruct (append_suffix_inj _ _ _ _ Hp2 Heq) as [_ ->]. now exists p1.
Qed.

(** X16. Every path ending with ".tsx" is compilable, whatever precedes
    the extension: the ".d.ts" exclusion has no ".d.tsx" counterpart. *)
Theorem tsx_paths_are_compilable (pre : string) :
  isCompilableFile (pre +:+ ".tsx") = true /\
  isCompilableFile (pre +:+ ".d.tsx") = true.
Proof.
  assert (forall q, isCompilableFile (q +:+ ".tsx") = true) as Htsx.
  { intros q. unfold isCompilableFile, isCompilableFile_with.
    assert (Str.endsWith (q +:+ ".tsx") Constants.DTS_EXT = false) as ->.
    { apply StrFacts.endsWith_false. intros [r Heq].
      change Constants.DTS_EXT with ("." +:+ "d.ts") in Heq.
      rewrite <- append_assoc in Heq.
      destruct (append_suffix_inj q (r +:+ ".") ".tsx" "d.ts" eq_refl Heq)
        as [_ ?].
      discriminate. }
    assert (Str.endsWith (q +:+ ".tsx") Constants.TSX_EXT = true) as ->
      by (apply StrFacts.endsWith_spec; now exists q).
    apply orb_true_r. }
  split; [apply Htsx|].
  change ".d.tsx" with (".d" +:+ ".tsx"). rewrite <- append_assoc. apply Htsx.
Qed.

(** X17. A path ending with ".ts" is compilable exactly when the part
    before that extension does not end with ".d". *)
Theorem ts_path_compilable_unless_declaration (pre : string) :
  isCompilableFile (pre +:+ ".ts") = negb (Str.endsWith pre ".d").
Proof.
  unfold isCompilableFile, isCompilableFile_with.
  assert (Str.endsWith (pre +:+ ".ts") Constants.TS_EXT = true) as ->
    by (apply StrFacts.endsWith_spec; now exists pre).
  assert (Str.endsWith (pre +:+ ".ts") Constants.DTS_EXT = Str.endsWith pre ".d")
    as ->; [|now destruct (Str.endsWith pre ".d")].
  destruct (Str.endsWith pre ".d") eqn:Hd.
  - apply StrFacts.endsWith_spec in Hd as [q ->].
    apply StrFacts.endsWith_spec. exists q. now rewrite append_assoc.
  - apply StrFacts.endsWith_false. intros [q Heq].
    apply StrFacts.endsWith_false in Hd. apply Hd. exists q.
    change Constants.DTS_EXT with (".d" +:+ ".ts") in Heq.
    rewrite <- append_assoc in Heq.
    now destruct (append_suffix_inj pre (q +:+ ".d") ".ts" ".ts" eq_refl Heq)
      as [-> _].
Qed.

(** X18. The verdict depends only on the last five characters of the
    path: putting any directory prefix before a path of five characters or
    more does not change it. *)
Theorem isCompilableFile_ignores_directory (dir fsPath : string) :
  5 <= String.length fsPath ->
  isCompilableFile (dir +:+ fsPath) = isCompilableFile fsPath.
Proof.
  intros Hlen. unfold isCompilableFile, isCompilableFile_with.
  rewrite !endsWith_append_l; [reflexivity | simpl; lia ..].
Qed.

Lemma isCompilableFile_ignores_directory_witness :
  isCompilableFile ("node_modules/@rbxts/types/include/" +:+ "es.d.ts")
  = isCompilableFile "es.d.ts".
Proof.
  apply isCompilableFile_ignores_directory. simpl. lia.
Defined.


(** ** What the accessors answer *)

(** A symbol mapped after a binding loop was mapped so before the loop and
    is reached by no entry, or carries the payload of the last entry that
    reaches it. *)
Lemma bindEntries_Some_last {M} (lookupName : string -> option (list Symbol))
    (notFound : string -> string) (entries : list (string * M)) (s : Symbol)
    (macro : M) :
  forall (table table' : gmap Symbol M),
    bindEntries lookupName notFound entries table = Normal table' ->
    table' !! s = Some macro ->
    (table !! s = Some macro /\ ~ reachedBy lookupName entries s) \/
    lastReaching lookupName entries s macro.
Proof.
  induction entries as [|[name m] entries IH]; intros table table' Hrun Hs.
  - injection Hrun as <-. left. split; [exact Hs|].
    intros (n & p & Hin & _). now apply elem_of_nil in Hin.
  - rewrite bindEntries_cons in Hrun.
    destruct (lookupName name) as [symbols|] eqn:Hname; [|discriminate].
    destruct (IH _ _ Hrun Hs) as [[Hmid Hrest]|(pre & n & post & -> & Hrec & Hpost)].
    + rewrite setAll_lookup in Hmid.
      destruct (decide (s ∈ symbols)) as [Hin|Hnin].
      * injection Hmid as ->. right. exists [], name, entries.
        split; [reflexivity|]. split; [now exists symbols|].
        intros n' m' Hin' Hrec'. apply Hrest. now exists n', m'.
      * left. split; [exact Hmid|].
        intros (n' & m' & Hin' & Hrec').
        apply elem_of_cons in Hin' as [[= -> ->]|Hin'].
        -- destruct Hrec' as (l & Hl & Hsl). congruence.
        -- apply Hrest. now exists n', m'.
    + right. exists ((name, m) :: pre), n, post. auto.
Qed.

Lemma bindPropertyCallMacros_last {M} (index : NameIndex)
    (pre post : list (string * list (string * M))) (className : string)
    (mpre mpost : list (string * M)) (methodName : string) (macro : M)
    (table table' : gmap Symbol M) (s : Symbol) :
  bindPropertyCallMacros index
    (pre ++ (className, mpre ++ (methodName, macro) :: mpost) :: post) table
    = Normal table' ->
  recordedUnder (methodSymbols index className) methodName s ->
  (forall methodName' macro',
      (methodName', macro') ∈ mpost ->
      ~ recordedUnder (methodSymbols index className) methodName' s) ->
  (forall className' methodMacros' methodName' macro',
      (className', methodMacros') ∈ post ->
      (methodName', macro') ∈ methodMacros' ->
      ~ recordedUnder (methodSymbols index className') methodName' s) ->
  table' !! s = Some macro.
Proof.
  intros Hrun Hrec Hmpost Hpost.
  rewrite bindPropertyCallMacros_app in Hrun.
  destruct (bindPropertyCallMacros index pre table) as [table1|];
    [|discriminate].
  simpl in Hrun. rewrite bindPropertyCallMacros_cons in Hrun.
  destruct (interfaces index !! className) as [info|]; [|discriminate].
  destruct (bindEntries (methodSymbols index className) (noMethod className)
              (mpre ++ (methodName, macro) :: mpost) table1)
    as [table2|] eqn:Hms; [|discriminate].
  simpl in Hrun.
  apply (bindPropertyCallMacros_bound _ _ _ _ _ _ Hrun).
  - intros c' ms' m' p' Hc Hm Hrec'. destruct (Hpost _ _ _ _ Hc Hm Hrec').
  - left. exact (bindEntries_last _ _ _ _ _ _ _ _ _ Hms Hrec Hmpost).
Qed.

Lemma bindPropertyCallMacros_Some_last {M} (index : NameIndex)
    (classes : list (string * list (string * M))) (s : Symbol) (macro : M) :
  forall (table table' : gmap Symbol M),
    bindPropertyCallMacros index classes table = Normal table' ->
    table' !! s = Some macro ->
    (table !! s = Some macro /\ ~ methodReachedBy index classes s) \/
    lastMethodReaching index classes s macro.
Proof.
  induction classes as [|[c ms] classes IH]; intros table table' Hrun Hs.
  - injection Hrun as <-. left. split; [exact Hs|].
    intros (c & ms & n & p & Hin & _). now apply elem_of_nil in Hin.
  - rewrite bindPropertyCallMacros_cons in Hrun.
    destruct (interfaces index !! c) as [info|]; [|discriminate].
    destruct (bindEntries (methodSymbols index c) (noMethod c) ms table)
      as [table1|] eqn:Hms; [|discriminate].
    simpl in Hrun.
    destruct (IH _ _ Hrun Hs)
      as [[Hmid Hrest]
         |(pre & c' & mpre & n & mpost & post & -> & Hrec & Hmpost & Hpost)].
    + destruct (bindEntries_Some_last _ _ _ _ _ _ _ Hms Hmid)
        as [[Hold Hnone]|(mpre & n & mpost & -> & Hrec & Hmpost)].
      * left. split; [exact Hold|].
        intros (c' & ms' & n' & p' & Hin & Hm & Hrec').
        apply elem_of_cons in Hin as [[= -> ->]|Hin].
        -- apply Hnone. now exists n', p'.
        -- apply Hrest. now exists c', ms', n', p'.
      * right. exists [], c, mpre, n, mpost, classes.
        split; [reflexivity|]. split; [exact Hrec|]. split; [exact Hmpost|].
        intros c' ms' n' p' Hin Hm Hrec'. apply Hrest.
        now exists c', ms', n', p'.
    + right. exists ((c, ms) :: pre), c', mpre, n, mpost, post. auto.
Qed.

Section Accessors.

Context {IdentifierMacro CallMacro ConstructorMacro PropertyCallMacro : Type}.
Variables (host : Host) (program : Program) (typeChecker : TypeChecker).
Variable tables :
  MacroTables IdentifierMacro CallMacro ConstructorMacro PropertyCallMacro.
Variable nodeModulesPath : string.

(** C5. After a successful construction each accessor answers, for every
    symbol, the bound payload or "no macro", and which of the two is
    settled by the table and the Name Index: it answers a macro exactly
    when that macro is the payload of the last table entry under whose name
    (interface, or interface and method) the scanner recorded the symbol,
    and "no macro" exactly when no entry reaches the symbol. The answer is
    a value of an option type: no accessor raises an error. *)
Theorem accessors_total
    (this : MacroManager IdentifierMacro CallMacro ConstructorMacro
              PropertyCallMacro)
    (index : NameIndex) :
  MacroManager_new host tables program typeChecker nodeModulesPath
    = Normal this ->
  scanDeclarations host program typeChecker nodeModulesPath = Normal index ->
  forall s : Symbol,
    ((forall macro,
         getIdentifierMacro this s = Some macro <->
         lastReaching (identifierSymbols index) (IDENTIFIER_MACROS tables)
           s macro) /\
     (getIdentifierMacro this s = None <->
      ~ reachedBy (identifierSymbols index) (IDENTIFIER_MACROS tables) s)) /\
    ((forall macro,
         getCallMacro this s = Some macro <->
         lastReaching (functionSymbols index) (CALL_MACROS tables) s macro) /\
     (getCallMacro this s = None <->
      ~ reachedBy (functionSymbols index) (CALL_MACROS tables) s)) /\
    ((forall macro,
         getConstructorMacro this s = Some macro <->
         lastReaching (constructorSymbols index) (CONSTRUCTOR_MACROS tables)
           s macro) /\
     (getConstructorMacro this s = None <->
      ~ reachedBy (constructorSymbols index) (CONSTRUCTOR_MACROS tables) s)) /\
    ((forall macro,
         getPropertyCallMacro this s = Some macro <->
         lastMethodReaching index (PROPERTY_CALL_MACROS tables) s macro) /\
     (getPropertyCallMacro this s = None <->
      ~ methodReachedBy index (PROPERTY_CALL_MACROS tables) s)).
Proof.
  intros Hnew Hscan s.
  rewrite (MacroManager_new_scanned _ _ _ _ _ _ Hscan) in Hnew.
  apply bindMacros_Normal in Hnew as (Hid & Hcall & Hctor & Hpcm).
  assert (forall {M} (lookupName : string -> option (list Symbol)) notFound
                 (entries : list (string * M)) (table : gmap Symbol M),
             bindEntries lookupName notFound entries ∅ = Normal table ->
             (forall macro,
                 table !! s = Some macro <->
                 lastReaching lookupName entries s macro) /\
             (table !! s = None <-> ~ reachedBy lookupName entries s))
    as Hflat.
  { intros M lookupName notFound entries table Hrun. split.
    - intros macro. split.
      + intros Hs.
        destruct (bindEntries_Some_last _ _ _ _ _ _ _ Hrun Hs)
          as [[Hempty _]|Hlast]; [now rewrite lookup_empty in Hempty|].
        exact Hlast.
      + intros (pre & name & post & -> & Hrec & Hpost).
        exact (bindEntries_last _ _ _ _ _ _ _ _ _ Hrun Hrec Hpost).
    - split.
      + intros Hnone Hreach.
        destruct (bindEntries_reached _ _ _ _ _ _ Hrun (or_intror Hreach))
          as [m Hm].
        congruence.
      + intros Hnot. destruct (table !! s) as [m|] eqn:Hs; [|reflexivity].
        destruct (bindEntries_origin _ _ _ _ _ _ _ Hrun Hs)
          as [Hempty|(n & Hin & Hrec)]; [now rewrite lookup_empty in Hempty|].
        destruct Hnot. now exists n, m. }
  split; [exact (Hflat _ _ _ _ _ Hid)|].
  split; [exact (Hflat _ _ _ _ _ Hcall)|].
  split; [exact (Hflat _ _ _ _ _ Hctor)|].
  unfold getPropertyCallMacro. split.
  - intros macro. split.
    + intros Hs.
      destruct (bindPropertyCallMacros_Some_last _ _ _ _ _ _ Hpcm Hs)
        as [[Hempty _]|Hlast]; [now rewrite lookup_empty in Hempty|].
      exact Hlast.
    + intros (pre & c & mpre & n & mpost & post & Htable & Hrec & Hmpost & Hpost).
      rewrite Htable in Hpcm.
      exact (bindPropertyCallMacros_last _ _ _ _ _ _ _ _ _ _ _ Hpcm Hrec Hmpost
               Hpost).
  - split.
    + intros Hnone Hreach.
      destruct (bindPropertyCallMacros_reached _ _ _ _ _ Hpcm (or_intror Hreach))
        as [m Hm].
      congruence.
    + intros Hnot.
      destruct (propertyCallMacros this !! s) as [m|] eqn:Hs; [|reflexivity].
      destruct (bindPropertyCallMacros_origin _ _ _ _ _ _ Hpcm Hs)
        as [Hempty|(c & ms & n & Hc & Hm & Hrec)];
        [now rewrite lookup_empty in Hempty|].
      destruct Hnot. now exists c, ms, n, m.
Qed.

End Accessors.

(** In the scenario [script] keeps its macro although [game] follows it in
    the table, the [push] symbol answers [P1], and the [pop] symbol, which
    the scanner recorded and no entry reaches, answers "no macro"; the
    symbol the checker gives to both [Map.get] and [Array.push] answers the
    macro of the later entry. *)
Lemma accessors_total_witness :
  getIdentifierMacro Scenario.theManager 1%positive = Some "scriptMacro" /\
  getPropertyCallMacro Scenario.theManager 8%positive = Some "P1" /\
  recordedUnder (methodSymbols Scenario.theIndex "Array") "pop" 10%positive /\
  getPropertyCallMacro Scenario.theManager 10%positive = None /\
  getPropertyCallMacro Methods.theManager 40%positive = Some "P1".
Proof.
  pose proof (accessors_total
                Scenario.host Scenario.program Scenario.typeChecker
                Scenario.tables Scenario.nodeModulesPath
                Scenario.theManager Scenario.theIndex
                scenario_manager_eq scenario_index_eq) as Hscenario.
  pose proof (accessors_total
                Scenario.host Methods.program Methods.typeChecker
                Methods.tables Scenario.nodeModulesPath
                Methods.theManager Methods.theIndex
                methods_manager_eq methods_index_eq 40%positive)
    as (_ & _ & _ & Hmethods & _).
  split; [|split; [|split; [|split]]].
  - destruct (Hscenario 1%positive) as ((Hsome & _) & _).
    apply Hsome. exists [], "script", [("game", "gameMacro")].
    split; [reflexivity|]. split; [is_recorded|].
    intros n m Hin R. split_elem_of. read_recorded. split_elem_of. discriminate.
  - destruct (Hscenario 8%positive) as (_ & _ & _ & Hsome & _).
    apply Hsome. exists [], "Array", [], "push", [], [].
    split; [reflexivity|]. split; [is_recorded|].
    split; intros; split_elem_of.
  - is_recorded.
  - destruct (Hscenario 10%positive) as (_ & _ & _ & _ & Hnone).
    apply Hnone. intros (c & ms & n & m & Hc & Hm & R).
    simpl in Hc. split_elem_of. split_elem_of.
    read_recorded. split_elem_of; discriminate.
  - apply Hmethods.
    exists [("Map", [("get", "G")])], "Array", [("pop", "P0")], "push",
      [("shift", "S")], [("Set", [("add", "A")])].
    split; [reflexivity|]. split; [is_recorded|]. split.
    + intros n m Hin R. split_elem_of. read_recorded. split_elem_of.
      discriminate.
    + intros c ms n m Hc Hin R. split_elem_of. split_elem_of.
      read_recorded. split_elem_of. discriminate.
Defined.
